(** * ESP32 LED / buzzer demo programs: a shallow embedding and its properties

    The repository holds six single-file ESP-IDF programs.  This development
    embeds five of them:

    - [Siren]         Project_2/main/main.c  (police siren, frequency sweep)
    - [Melody]        Project_3/main/main.c  (Imperial March player)
    - [Morse]         Project_4/main/main.c  (SOS beacon)
    - [Countdown]     Project_5/main/main.c  (countdown timer)
    - [TrafficLight]  Project_6/main/main.c  (timed state machine with beeps)

    C integers are modelled as [Z] with the wrap-around of unsigned types
    written out; global variables become a record that is threaded through
    the functions; peripheral calls and log lines are recorded in a trace. *)

From Stdlib Require Import ZArith List String Ascii Bool Lia.
Import ListNotations.
Open Scope Z_scope.

(** ** Machine integers *)
Module CInt.

Definition UINT32_MOD : Z := 2 ^ 32.
Definition UINT64_MOD : Z := 2 ^ 64.
Definition INT_MIN : Z := - 2 ^ 31.
Definition INT_MAX : Z := 2 ^ 31 - 1.

(** Conversion to [uint32_t] / [uint64_t]. *)
Definition to_uint32 (z : Z) : Z := z mod UINT32_MOD.
Definition to_uint64 (z : Z) : Z := z mod UINT64_MOD.

(** Unsigned subtraction, as C computes [a - b] on [uint32_t] / [uint64_t]. *)
Definition sub32 (a b : Z) : Z := (a - b) mod UINT32_MOD.
Definition sub64 (a b : Z) : Z := (a - b) mod UINT64_MOD.

End CInt.

(** ** Project 2: police siren *)
Module Siren.
Import CInt.

Definition RED_LED : Z := 18.
Definition BLUE_LED : Z := 19.
Definition BUZZER : Z := 21.

Definition LED_TIME_MS : Z := 200.
Definition BUZZER_TIME_MS : Z := 5.

Definition FREQ_MIN : Z := 600.
Definition FREQ_MAX : Z := 1200.
Definition FREQ_STEP : Z := 5.

(** The file-scope variables of main.c. *)
Record Globals : Type := mkGlobals {
  led_on : bool;
  freq_up : bool;
  buzzer_freq : Z;
  last_led_time : Z;
  last_buzzer_time : Z
}.

(** Their initialisers. *)
Definition initial : Globals :=
  {| led_on := false; freq_up := true; buzzer_freq := FREQ_MIN;
     last_led_time := 0; last_buzzer_time := 0 |}.

(** The calls of the loop that drive the LEDs and the buzzer.  The clock
    read at the top of each pass, the log lines and the [vTaskDelay(1)] at
    its end are not recorded. *)
Inductive Output : Type :=
| GpioSetLevel (pin : Z) (level : bool)
| LedcTimerConfig (freq_hz : Z).

(** The [if (freq_up) ... else ...] block of the loop: one sweep step. *)
Definition sweep_step (g : Globals) : Globals :=
  if freq_up g then
    let f := buzzer_freq g + FREQ_STEP in
    {| led_on := led_on g;
       freq_up := if FREQ_MAX <=? f then false else freq_up g;
       buzzer_freq := f;
       last_led_time := last_led_time g;
       last_buzzer_time := last_buzzer_time g |}
  else
    let f := buzzer_freq g - FREQ_STEP in
    {| led_on := led_on g;
       freq_up := if f <=? FREQ_MIN then true else freq_up g;
       buzzer_freq := f;
       last_led_time := last_led_time g;
       last_buzzer_time := last_buzzer_time g |}.

(** The "LED blinking" block, entered when [now - last_led_time >= LED_TIME_MS]. *)
Definition led_block (now : Z) (g : Globals) : Globals * list Output :=
  if LED_TIME_MS <=? sub64 now (last_led_time g) then
    let on := negb (led_on g) in
    ({| led_on := on; freq_up := freq_up g; buzzer_freq := buzzer_freq g;
        last_led_time := now; last_buzzer_time := last_buzzer_time g |},
     [GpioSetLevel RED_LED on; GpioSetLevel BLUE_LED (negb on)])
  else (g, []).

(** The "Buzzer smooth siren" block, entered when
    [now - last_buzzer_time >= BUZZER_TIME_MS]. *)
Definition buzzer_block (now : Z) (g : Globals) : Globals * list Output :=
  if BUZZER_TIME_MS <=? sub64 now (last_buzzer_time g) then
    let g' := sweep_step g in
    ({| led_on := led_on g'; freq_up := freq_up g'; buzzer_freq := buzzer_freq g';
        last_led_time := last_led_time g'; last_buzzer_time := now |},
     [LedcTimerConfig (buzzer_freq g')])
  else (g, []).

(** One iteration of [while (1)] in [app_main]; [timer_us] is what
    [esp_timer_get_time()] returns in this iteration. *)
Definition loop_body (timer_us : Z) (g : Globals) : Globals * list Output :=
  let now := to_uint64 (Z.quot timer_us 1000) in
  let '(g1, o1) := led_block now g in
  let '(g2, o2) := buzzer_block now g1 in
  (g2, o1 ++ o2).

(** The loop run over the successive timer readings [timer]. *)
Fixpoint run (timer : list Z) (g : Globals) : Globals * list Output :=
  match timer with
  | [] => (g, [])
  | t :: rest =>
      let '(g1, o1) := loop_body t g in
      let '(g2, o2) := run rest g1 in
      (g2, o1 ++ o2)
  end.

(** The triangle wave the sweep is meant to follow, as a function of the
    number of sweep steps taken. *)
Definition triangle (k : Z) : Z :=
  let r := k mod 240 in
  if r <=? 120 then FREQ_MIN + FREQ_STEP * r else FREQ_MAX - FREQ_STEP * (r - 120).

(** The sweep invariant: in range, on the 5 Hz grid, and the direction flag
    agrees with the end points. *)
Definition sweep_inv (g : Globals) : Prop :=
  FREQ_MIN <= buzzer_freq g <= FREQ_MAX /\
  (FREQ_STEP | buzzer_freq g) /\
  (freq_up g = true -> buzzer_freq g < FREQ_MAX) /\
  (freq_up g = false -> FREQ_MIN < buzzer_freq g).

(** The part of the globals the sweep reads and writes. *)
Definition sweep_state (g : Globals) : bool * Z := (freq_up g, buzzer_freq g).

(** Every frequency handed to [ledc_timer_config] lies in the range. *)
Definition output_in_range (o : Output) : Prop :=
  match o with
  | LedcTimerConfig f => FREQ_MIN <= f <= FREQ_MAX
  | GpioSetLevel _ _ => True
  end.



Definition is_timer_config (o : Output) : bool :=
  match o with
  | LedcTimerConfig _ => true
  | GpioSetLevel _ _ => false
  end.

(** Number of times the buzzer frequency is reprogrammed. *)
Definition frequency_updates (outs : list Output) : Z :=
  Z.of_nat (List.length (filter is_timer_config outs)).

(** The millisecond values the loop computes from the timer readings. *)
Definition nows (timer : list Z) : list Z :=
  map (fun t => to_uint64 (Z.quot t 1000)) timer.

(** [x], then the elements of [l], never decrease. *)
Fixpoint ascending_from (x : Z) (l : list Z) : Prop :=
  match l with
  | [] => True
  | y :: rest => x <= y /\ ascending_from y rest
  end.

End Siren.

(** ** Project 3: melody player *)
Module Melody.
Import CInt.

Definition NOTE_B3 : Z := 247.
Definition NOTE_C4 : Z := 262.
Definition NOTE_CS4 : Z := 277.
Definition NOTE_D4 : Z := 294.
Definition NOTE_DS4 : Z := 311.
Definition NOTE_E4 : Z := 330.
Definition NOTE_F4 : Z := 349.
Definition NOTE_FS4 : Z := 370.
Definition NOTE_G4 : Z := 392.
Definition NOTE_GS4 : Z := 415.
Definition NOTE_A4 : Z := 440.
Definition NOTE_AS4 : Z := 466.
Definition NOTE_B4 : Z := 494.
Definition NOTE_C5 : Z := 523.
Definition NOTE_CS5 : Z := 554.
Definition NOTE_D5 : Z := 587.
Definition NOTE_DS5 : Z := 622.
Definition NOTE_E5 : Z := 659.
Definition NOTE_F5 : Z := 698.
Definition NOTE_FS5 : Z := 740.
Definition NOTE_G5 : Z := 784.
Definition NOTE_GS5 : Z := 831.
Definition NOTE_A5 : Z := 880.
Definition REST : Z := 0.

Definition LED1_PIN : Z := 2.
Definition LED2_PIN : Z := 4.
Definition LED3_PIN : Z := 15.
Definition LEDC_DUTY : Z := 4096.

Definition TEMPO : Z := 120.
Definition WHOLE_NOTE : Z := Z.quot (60000 * 4) TEMPO.

(** C's [int] division: undefined for a zero divisor and for
    [INT_MIN / -1], truncating otherwise. *)
Definition int_div (a b : Z) : option Z :=
  if b =? 0 then None
  else if (a =? INT_MIN) && (b =? -1) then None
  else Some (Z.quot a b).

(** C's [abs]: undefined when the result is not representable. *)
Definition int_abs (n : Z) : option Z :=
  if n =? INT_MIN then None else Some (Z.abs n).

(** [q * 1.5] computed in [double] and converted back to [int] on return.
    For an [int] [q] the product [3q/2] is a multiple of one half below
    2^33, which [double] represents exactly; the conversion truncates
    toward zero. *)
Definition times_one_and_a_half (q : Z) : Z := Z.quot (3 * q) 2.

(** [calc_duration]; [None] stands for undefined behaviour. *)
Definition calc_duration (divider : Z) : option Z :=
  if 0 <? divider then int_div WHOLE_NOTE divider
  else
    match int_abs divider with
    | None => None
    | Some a =>
        match int_div WHOLE_NOTE a with
        | None => None
        | Some q => Some (times_one_and_a_half q)
        end
    end.

(** The melody table: rows of (frequency, duration divider). *)
Definition imperial_march_raw : list (Z * Z) :=
  [ (* Main theme *)
    (NOTE_A4, -4); (NOTE_A4, -4); (NOTE_A4, 16); (NOTE_A4, 16);
    (NOTE_A4, 16); (NOTE_A4, 16); (NOTE_F4, 8); (REST, 8);
    (NOTE_A4, -4); (NOTE_A4, -4); (NOTE_A4, 16); (NOTE_A4, 16);
    (NOTE_A4, 16); (NOTE_A4, 16); (NOTE_F4, 8); (REST, 8);
    (NOTE_A4, 4); (NOTE_A4, 4); (NOTE_A4, 4); (NOTE_F4, -8); (NOTE_C5, 16);
    (* Section 1 *)
    (NOTE_A4, 4); (NOTE_F4, -8); (NOTE_C5, 16); (NOTE_A4, 2);
    (NOTE_E5, 4); (NOTE_E5, 4); (NOTE_E5, 4); (NOTE_F5, -8); (NOTE_C5, 16);
    (NOTE_A4, 4); (NOTE_F4, -8); (NOTE_C5, 16); (NOTE_A4, 2);
    (* Section 2 *)
    (NOTE_A5, 4); (NOTE_A4, -8); (NOTE_A4, 16); (NOTE_A5, 4);
    (NOTE_GS5, -8); (NOTE_G5, 16);
    (NOTE_DS5, 16); (NOTE_D5, 16); (NOTE_DS5, 8); (REST, 8);
    (NOTE_A4, 8); (NOTE_DS5, 4); (NOTE_D5, -8); (NOTE_CS5, 16);
    (NOTE_C5, 16); (NOTE_B4, 16); (NOTE_C5, 16); (REST, 8);
    (NOTE_F4, 8); (NOTE_GS4, 4); (NOTE_F4, -8); (NOTE_A4, -16);
    (NOTE_C5, 4); (NOTE_A4, -8); (NOTE_C5, 16); (NOTE_E5, 2);
    (* Section 3 (repeat of section 2) *)
    (NOTE_A5, 4); (NOTE_A4, -8); (NOTE_A4, 16); (NOTE_A5, 4);
    (NOTE_GS5, -8); (NOTE_G5, 16);
    (NOTE_DS5, 16); (NOTE_D5, 16); (NOTE_DS5, 8); (REST, 8);
    (NOTE_A4, 8); (NOTE_DS5, 4); (NOTE_D5, -8); (NOTE_CS5, 16);
    (NOTE_C5, 16); (NOTE_B4, 16); (NOTE_C5, 16); (REST, 8);
    (NOTE_F4, 8); (NOTE_GS4, 4); (NOTE_F4, -8); (NOTE_A4, -16);
    (NOTE_A4, 4); (NOTE_F4, -8); (NOTE_C5, 16); (NOTE_A4, 2) ].

Definition MELODY_LENGTH : nat := List.length imperial_march_raw.

(** Peripheral calls.  [DelayTenths n d] is
    [vTaskDelay(pdMS_TO_TICKS(d * 0.n))]. *)
Inductive Event : Type :=
| GpioSetLevel (pin level : Z)
| LedcSetFreq (freq_hz : Z)
| LedcSetDuty (duty : Z)
| LedcUpdateDuty
| DelayTenths (tenths duration : Z).

Definition leds_off : list Event :=
  [GpioSetLevel LED1_PIN 0; GpioSetLevel LED2_PIN 0; GpioSetLevel LED3_PIN 0].

Definition update_leds (frequency : Z) : list Event :=
  leds_off ++
  (if frequency <? 400 then [GpioSetLevel LED1_PIN 1]
   else if frequency <? 650 then [GpioSetLevel LED2_PIN 1]
   else [GpioSetLevel LED3_PIN 1]).

Definition play_note (frequency duration : Z) : list Event :=
  (if frequency =? 0 then
     [LedcSetDuty 0; LedcUpdateDuty] ++ leds_off
   else
     [LedcSetFreq frequency; LedcSetDuty LEDC_DUTY; LedcUpdateDuty]
     ++ update_leds frequency)
  ++ [DelayTenths 9 duration]
  ++ [LedcSetDuty 0; LedcUpdateDuty] ++ leds_off
  ++ [DelayTenths 1 duration].

(** The [for] loop of [play_melody] over the rows still to be played;
    [None] when a row's duration is undefined. *)
Fixpoint play_rows (rows : list (Z * Z)) : option (list Event) :=
  match rows with
  | [] => Some []
  | (frequency, divider) :: rest =>
      match calc_duration divider with
      | None => None
      | Some duration =>
          match play_rows rest with
          | None => None
          | Some evs => Some (play_note frequency duration ++ evs)
          end
      end
  end.

Definition play_melody : option (list Event) := play_rows imperial_march_raw.

(** The duration [play_rows] uses for a divider; 0 stands in where
    [calc_duration] has no value. *)
Definition duration_or_zero (divider : Z) : Z :=
  match calc_duration divider with
  | Some duration => duration
  | None => 0
  end.

(** A row whose duration is undefined. *)
Definition bad_row (row : Z * Z) : Prop := snd row = 0 \/ snd row = INT_MIN.

End Melody.

(** ** Project 4: SOS Morse beacon *)
Module Morse.
Import CInt.

Definition LED_PIN : Z := 2.
Definition LEDC_DUTY : Z := 4096.

Definition TIME_UNIT : Z := 200.
Definition DOT_DURATION : Z := TIME_UNIT * 1.
Definition DASH_DURATION : Z := TIME_UNIT * 3.
Definition SYMBOL_SPACE : Z := TIME_UNIT * 1.
Definition LETTER_SPACE : Z := TIME_UNIT * 3.
Definition WORD_SPACE : Z := TIME_UNIT * 7.

(** [enum MorseSymbol]: a C enumeration is an integer type, and the
    pattern below stores values that are none of its enumerators. *)
Definition MorseSymbol : Type := Z.
Definition DOT : MorseSymbol := 0.
Definition DASH : MorseSymbol := 1.
Definition SPACE_SYMBOL : MorseSymbol := 2.
Definition SPACE_LETTER : MorseSymbol := 3.
Definition SPACE_WORD : MorseSymbol := 4.

Definition sos_pattern : list MorseSymbol :=
  [ DOT; SYMBOL_SPACE; DOT; SYMBOL_SPACE; DOT;
    SPACE_LETTER;
    DASH; SYMBOL_SPACE; DASH; SYMBOL_SPACE; DASH;
    SPACE_LETTER;
    DOT; SYMBOL_SPACE; DOT; SYMBOL_SPACE; DOT;
    SPACE_WORD ].

Definition PATTERN_LENGTH : nat := List.length sos_pattern.

Definition MORSE_BUFFER_SIZE : Z := 128.

Inductive Event : Type :=
| GpioSetLevel (pin level : Z)
| LedcSetDuty (duty : Z)
| LedcUpdateDuty
| VTaskDelay (ms : Z)
| LogTransmitted (text : string).

(** [morse_buffer] (its text up to the terminating NUL), [morse_pos], and
    the peripheral calls made so far, oldest first. *)
Record State : Type := mkState {
  morse_buffer : string;
  morse_pos : Z;
  trace : list Event
}.

Definition emit (evs : list Event) (st : State) : State :=
  {| morse_buffer := morse_buffer st; morse_pos := morse_pos st;
     trace := trace st ++ evs |}.

Definition signal_on (duration_ms : Z) (st : State) : State :=
  emit [GpioSetLevel LED_PIN 1; LedcSetDuty LEDC_DUTY; LedcUpdateDuty;
        VTaskDelay duration_ms] st.

Definition signal_off (duration_ms : Z) (st : State) : State :=
  emit [GpioSetLevel LED_PIN 0; LedcSetDuty 0; LedcUpdateDuty;
        VTaskDelay duration_ms] st.

(** [strcpy(morse_buffer + morse_pos, str)] when there is room; the sum is
    compared as [size_t] against [sizeof(morse_buffer) - 1]. *)
Definition morse_buffer_add (str : string) (st : State) : State :=
  let len := Z.of_nat (String.length str) in
  if to_uint32 (morse_pos st + len) <? MORSE_BUFFER_SIZE - 1 then
    {| morse_buffer :=
         String.append (String.substring 0 (Z.to_nat (morse_pos st)) (morse_buffer st)) str;
       morse_pos := morse_pos st + len;
       trace := trace st |}
  else st.

Definition morse_buffer_clear (st : State) : State :=
  {| morse_buffer := EmptyString; morse_pos := 0; trace := trace st |}.

(** The [switch] of [transmit_symbol]; it has no [default] label, so a
    value that matches no [case] falls through to the end. *)
Definition transmit_symbol (symbol : MorseSymbol) (st : State) : State :=
  if symbol =? DOT then signal_on DOT_DURATION (morse_buffer_add "."%string st)
  else if symbol =? DASH then signal_on DASH_DURATION (morse_buffer_add "-"%string st)
  else if symbol =? SPACE_SYMBOL then signal_off SPACE_SYMBOL st
  else if symbol =? SPACE_LETTER then signal_off LETTER_SPACE (morse_buffer_add " "%string st)
  else if symbol =? SPACE_WORD then signal_off WORD_SPACE st
  else st.

Definition transmit_sos (st : State) : State :=
  let st1 := fold_left (fun acc sym => transmit_symbol sym acc) sos_pattern
               (morse_buffer_clear st) in
  emit [LogTransmitted (morse_buffer st1)] st1.

(** The state [app_main] enters its loop with. *)
Definition start : State := {| morse_buffer := EmptyString; morse_pos := 0; trace := [] |}.

(** Milliseconds the signal is held off between two events of a trace:
    the delays requested while the LED level last written is 0. *)
Fixpoint off_time (level : Z) (evs : list Event) : Z :=
  match evs with
  | [] => 0
  | GpioSetLevel _ l :: rest => off_time l rest
  | VTaskDelay ms :: rest => (if level =? 0 then ms else 0) + off_time level rest
  | _ :: rest => off_time level rest
  end.

(** The calls that switch the signal on and hold it for [duration_ms]. *)
Definition mark_calls (duration_ms : Z) : list Event :=
  [GpioSetLevel 2 1; LedcSetDuty 4096; LedcUpdateDuty; VTaskDelay duration_ms].

(** The calls that switch the signal off and hold it for [duration_ms]. *)
Definition gap_calls (duration_ms : Z) : list Event :=
  [GpioSetLevel 2 0; LedcSetDuty 0; LedcUpdateDuty; VTaskDelay duration_ms].

(** How long a dot or a dash is held, in milliseconds. *)
Definition mark_duration (symbol : MorseSymbol) : Z :=
  if symbol =? DOT then 200 else 600.

(** [morse_pos] is the length of the text and leaves room for the
    terminating NUL inside [morse_buffer]. *)
Definition buffer_ok (st : State) : Prop :=
  morse_pos st = Z.of_nat (String.length (morse_buffer st)) /\
  morse_pos st < MORSE_BUFFER_SIZE - 1.

(** The calls one SOS cycle makes, before its log line. *)
Definition sos_cycle_calls : list Event :=
  trace (fold_left (fun acc sym => transmit_symbol sym acc) sos_pattern start).

(** Sum of the delays a trace requests. *)
Fixpoint total_delay (evs : list Event) : Z :=
  match evs with
  | [] => 0
  | VTaskDelay ms :: rest => ms + total_delay rest
  | _ :: rest => total_delay rest
  end.

End Morse.

(** ** Project 5: countdown timer *)
Module Countdown.
Import CInt.

Definition NUM_LEDS : Z := 5.
Definition led_pins : list Z := [2; 4; 15; 18; 19].

Definition LEDC_DUTY : Z := 4096.
Definition INITIAL_TICK_INTERVAL : Z := 1000.
Definition ACCELERATED_TICK_INTERVAL : Z := 200.
Definition TICK_FREQUENCY : Z := 1000.
Definition EXPLOSION_FREQUENCY : Z := 100.
Definition EXPLOSION_DURATION : Z := 2000.
Definition FLASH_INTERVAL : Z := 100.

Inductive LogLine : Type :=
| Phase (text : string)
| AllLedsOn (count : Z)
| LedsRemaining (count : Z)
| Boom
| ExplosionComplete
| Resetting.

Inductive Event : Type :=
| GpioSetLevel (pin level : Z)
| LedcSetFreq (freq_hz : Z)
| LedcSetDuty (duty : Z)
| LedcUpdateDuty
| VTaskDelay (ms : Z)
| EspLog (line : LogLine).

(** What a loop with a fuel bound ends in: its calls, the bound, or a
    signed overflow (undefined behaviour). *)
Inductive Outcome : Type :=
| Finished (events : list Event)
| OutOfFuel
| Overflow.

(** [a + b] on [int]. *)
Definition int_add (a b : Z) : option Z :=
  let r := a + b in
  if (INT_MIN <=? r) && (r <=? INT_MAX) then Some r else None.

(** The [for] loop of [turn_on_leds] from index [i] on, over the pins
    still to be written. *)
Fixpoint turn_on_from (i : Z) (pins : list Z) (count : Z) : list Event :=
  match pins with
  | [] => []
  | pin :: rest =>
      GpioSetLevel pin (if i <? count then 1 else 0) :: turn_on_from (i + 1) rest count
  end.

Definition turn_on_leds (count : Z) : list Event := turn_on_from 0 led_pins count.

Definition turn_off_all_leds : list Event :=
  map (fun pin => GpioSetLevel pin 0) led_pins.

(** The outer [for] loop of [flash_all_leds], [n] flashes to go. *)
Fixpoint flash_loop (n : nat) (interval_ms : Z) : list Event :=
  match n with
  | O => []
  | S k =>
      map (fun pin => GpioSetLevel pin 1) led_pins
      ++ [VTaskDelay interval_ms]
      ++ turn_off_all_leds
      ++ [VTaskDelay interval_ms]
      ++ flash_loop k interval_ms
  end.

(** [for (int i = 0; i < times; i++)]: no pass when [times <= 0]. *)
Definition flash_all_leds (times interval_ms : Z) : list Event :=
  flash_loop (Z.to_nat times) interval_ms.

Definition beep (frequency duration_ms : Z) : list Event :=
  [ LedcSetFreq frequency; LedcSetDuty LEDC_DUTY; LedcUpdateDuty;
    VTaskDelay duration_ms;
    LedcSetDuty 0; LedcUpdateDuty ].

Definition tick_sound : list Event := beep TICK_FREQUENCY 100.

Definition explosion_sound : list Event := beep EXPLOSION_FREQUENCY EXPLOSION_DURATION.

Definition setup_phase : list Event :=
  turn_on_leds NUM_LEDS ++ [EspLog (AllLedsOn NUM_LEDS); VTaskDelay 2000].

(** The five rapid ticks after the last LED of the accelerated phase. *)
Fixpoint rapid_ticks (n : nat) : list Event :=
  match n with
  | O => []
  | S k => VTaskDelay ACCELERATED_TICK_INTERVAL :: tick_sound ++ rapid_ticks k
  end.

(** The [while (true)] loop of [countdown_phase], entered with
    [current_led]. *)
Fixpoint countdown_loop (fuel : nat) (current_led end_led direction tick_interval : Z)
    : Outcome :=
  match fuel with
  | O => OutOfFuel
  | S fuel' =>
      match int_add current_led 1 with
      | None => Overflow
      | Some count =>
          let shown :=
            turn_on_leds count ++ [EspLog (LedsRemaining count)] ++ tick_sound in
          if current_led =? end_led then
            Finished
              (shown ++
               (if (tick_interval =? ACCELERATED_TICK_INTERVAL) && (end_led =? 0)
                then rapid_ticks 5 else []))
          else
            match int_add current_led direction with
            | None => Overflow
            | Some next =>
                match countdown_loop fuel' next end_led direction tick_interval with
                | Finished rest => Finished (shown ++ [VTaskDelay tick_interval] ++ rest)
                | OutOfFuel => OutOfFuel
                | Overflow => Overflow
                end
            end
      end
  end.

Definition countdown_phase (fuel : nat) (start_led end_led tick_interval : Z) : Outcome :=
  let direction := if end_led <? start_led then -1 else 1 in
  countdown_loop fuel start_led end_led direction tick_interval.

Definition explosion_phase : list Event :=
  [ EspLog Boom;
    LedcSetFreq EXPLOSION_FREQUENCY; LedcSetDuty LEDC_DUTY; LedcUpdateDuty ]
  ++ flash_all_leds (Z.quot EXPLOSION_DURATION (FLASH_INTERVAL * 2)) FLASH_INTERVAL
  ++ [ LedcSetDuty 0; LedcUpdateDuty; EspLog ExplosionComplete ].

(** One pass of the [while (1)] of [app_main]. *)
Definition app_main_cycle (fuel : nat) : Outcome :=
  match countdown_phase fuel (NUM_LEDS - 1) 1 INITIAL_TICK_INTERVAL with
  | Finished normal =>
      match countdown_phase fuel 0 0 ACCELERATED_TICK_INTERVAL with
      | Finished accelerated =>
          Finished
            ([EspLog (Phase "Setup")] ++ setup_phase
             ++ [EspLog (Phase "Normal Countdown")] ++ normal
             ++ [EspLog (Phase "CRITICAL - Accelerated Ticking!")] ++ accelerated
             ++ [EspLog (Phase "EXPLOSION!")] ++ explosion_phase
             ++ [EspLog Resetting; VTaskDelay 3000])
      | OutOfFuel => OutOfFuel
      | Overflow => Overflow
      end
  | OutOfFuel => OutOfFuel
  | Overflow => Overflow
  end.

(** *** Vocabulary for the statements *)

(** Number of LEDs a sequence of calls drives high. *)
Fixpoint high_writes (evs : list Event) : Z :=
  match evs with
  | [] => 0
  | GpioSetLevel _ level :: rest => (if level =? 1 then 1 else 0) + high_writes rest
  | _ :: rest => high_writes rest
  end.

(** The pins a sequence of calls writes, in order. *)
Fixpoint pins_written (evs : list Event) : list Z :=
  match evs with
  | [] => []
  | GpioSetLevel pin _ :: rest => pin :: pins_written rest
  | _ :: rest => pins_written rest
  end.

(** The LED counts a sequence of calls announces, in order. *)
Fixpoint counts_shown (evs : list Event) : list Z :=
  match evs with
  | [] => []
  | EspLog (LedsRemaining n) :: rest => n :: counts_shown rest
  | _ :: rest => counts_shown rest
  end.

(** Sum of the delays a sequence of calls requests. *)
Fixpoint total_delay (evs : list Event) : Z :=
  match evs with
  | [] => 0
  | VTaskDelay ms :: rest => ms + total_delay rest
  | _ :: rest => total_delay rest
  end.

(** [x], [x + d], ..., [n + 1] values in all. *)
Fixpoint steps_from (n : nat) (x d : Z) : list Z :=
  match n with
  | O => [x]
  | S k => x :: steps_from k (x + d) d
  end.

End Countdown.

(** ** Project 6: traffic light state machine *)
Module TrafficLight.
Import CInt.

Definition RED_LED_PIN : Z := 2.
Definition YELLOW_LED_PIN : Z := 4.
Definition GREEN_LED_PIN : Z := 15.
Definition BUZZER_PIN : Z := 5.

Definition LEDC_DUTY : Z := 4096.
Definition BEEP_FREQUENCY : Z := 800.

Definition RED_DURATION : Z := 5000.
Definition RED_TO_YELLOW_DURATION : Z := 2000.
Definition GREEN_DURATION : Z := 5000.
Definition GREEN_TO_YELLOW_DURATION : Z := 2000.
Definition BEEP_INTERVAL : Z := 1000.
Definition BEEP_DURATION : Z := 200.

(** [enum TrafficLightState]: an integer type with five enumerators.  The
    dispatcher has a [default] label for values that name no state. *)
Definition TrafficLightState : Type := Z.
Definition STATE_RED : TrafficLightState := 0.
Definition STATE_RED_TO_YELLOW : TrafficLightState := 1.
Definition STATE_GREEN : TrafficLightState := 2.
Definition STATE_GREEN_TO_YELLOW : TrafficLightState := 3.
Definition STATE_MAX : TrafficLightState := 4.

Definition state_names : list string :=
  [ "RED (STOP)"%string;
    "YELLOW (READY)"%string;
    "GREEN (GO - Safe to Cross)"%string;
    "YELLOW (CAUTION)"%string ].

Definition state_durations : list Z :=
  [ RED_DURATION; RED_TO_YELLOW_DURATION; GREEN_DURATION; GREEN_TO_YELLOW_DURATION ].

Record TrafficLightContext : Type := mkContext {
  current_state : TrafficLightState;
  state_start_time : Z;
  last_beep_time : Z;
  beep_active : bool
}.

Inductive LogLevel : Type := LogError | LogInfo | LogDebug.

Inductive LogLine : Type :=
| Banner (text : string)
| LedsInitialized (red yellow green : Z)
| BuzzerInitialized (pin freq_hz : Z)
| StateTransition (from to : string)
| UnknownState (state : Z)
| BeepSafeToCross.

(** Calls into ESP-IDF and FreeRTOS, in the order they are made. *)
Inductive Event : Type :=
| EspLogLevelSet (level : LogLevel)
| GpioConfig (pin_bit_mask : Z)
| GpioSetLevel (pin level : Z)
| LedcTimerConfig (freq_hz : Z)
| LedcChannelConfig (gpio_num duty : Z)
| LedcSetDuty (duty : Z)
| LedcUpdateDuty
| VTaskDelay (ms : Z)
| EspLog (level : LogLevel) (line : LogLine).

(** Output levels of the three LED pins and the buzzer channel's duty
    (the value written by [ledc_set_duty] takes effect at
    [ledc_update_duty]). *)
Record Board : Type := mkBoard {
  red_led : Z;
  yellow_led : Z;
  green_led : Z;
  duty_pending : Z;
  buzzer_duty : Z
}.

(** The program state: the global [traffic_context], the board, the calls
    made so far (oldest first), and the clock.  [esp_timer k] is what the
    [k]-th call of [esp_timer_get_time()] returns, in microseconds;
    [timer_reads] counts the calls made. *)
Record World : Type := mkWorld {
  traffic_context : TrafficLightContext;
  board : Board;
  trace : list Event;
  esp_timer : nat -> Z;
  timer_reads : nat
}.

(** *** A state monad with a fault for out-of-bounds array reads *)

Inductive Outcome (A : Type) : Type :=
| Done (a : A) (w : World)
| OutOfBounds (w : World).
Arguments Done {A} a w.
Arguments OutOfBounds {A} w.

Definition M (A : Type) : Type := World -> Outcome A.

Definition ret {A : Type} (a : A) : M A := fun w => Done a w.

Definition bind {A B : Type} (m : M A) (k : A -> M B) : M B :=
  fun w =>
    match m w with
    | Done a w' => k a w'
    | OutOfBounds w' => OutOfBounds w'
    end.

Declare Scope tl_scope.
Delimit Scope tl_scope with tl.
Notation "x <- m ;; k" := (bind m (fun x => k))
  (at level 61, m at next level, right associativity) : tl_scope.
Notation "m ;; k" := (bind m (fun _ => k))
  (at level 61, right associativity) : tl_scope.
Open Scope tl_scope.

Definition get_context : M TrafficLightContext :=
  fun w => Done (traffic_context w) w.

Definition put_context (c : TrafficLightContext) : M unit :=
  fun w => Done tt {| traffic_context := c; board := board w; trace := trace w;
                      esp_timer := esp_timer w; timer_reads := timer_reads w |}.

Definition modify_board (f : Board -> Board) : M unit :=
  fun w => Done tt {| traffic_context := traffic_context w; board := f (board w);
                      trace := trace w;
                      esp_timer := esp_timer w; timer_reads := timer_reads w |}.

Definition emit (e : Event) : M unit :=
  fun w => Done tt {| traffic_context := traffic_context w; board := board w;
                      trace := trace w ++ [e];
                      esp_timer := esp_timer w; timer_reads := timer_reads w |}.

Definition esp_timer_get_time : M Z :=
  fun w => Done (esp_timer w (timer_reads w))
             {| traffic_context := traffic_context w; board := board w;
                trace := trace w;
                esp_timer := esp_timer w; timer_reads := S (timer_reads w) |}.

(** [arr[i]]: reading outside the array is undefined behaviour. *)
Definition index {A : Type} (arr : list A) (i : Z) : M A :=
  fun w =>
    if i <? 0 then OutOfBounds w
    else match nth_error arr (Z.to_nat i) with
         | Some a => Done a w
         | None => OutOfBounds w
         end.

(** *** Setters for the fields of [traffic_context] *)

Definition set_current_state (s : TrafficLightState) : M unit :=
  c <- get_context ;;
  put_context {| current_state := s; state_start_time := state_start_time c;
                 last_beep_time := last_beep_time c; beep_active := beep_active c |}.

Definition set_state_start_time (t : Z) : M unit :=
  c <- get_context ;;
  put_context {| current_state := current_state c; state_start_time := t;
                 last_beep_time := last_beep_time c; beep_active := beep_active c |}.

Definition set_last_beep_time (t : Z) : M unit :=
  c <- get_context ;;
  put_context {| current_state := current_state c;
                 state_start_time := state_start_time c;
                 last_beep_time := t; beep_active := beep_active c |}.

Definition set_beep_active (b : bool) : M unit :=
  c <- get_context ;;
  put_context {| current_state := current_state c;
                 state_start_time := state_start_time c;
                 last_beep_time := last_beep_time c; beep_active := b |}.

(** *** Drivers (taken to succeed, as [ESP_ERROR_CHECK] demands) *)

Definition gpio_set_level (pin level : Z) : M unit :=
  emit (GpioSetLevel pin level) ;;
  modify_board (fun b =>
    {| red_led := if pin =? RED_LED_PIN then level else red_led b;
       yellow_led := if pin =? YELLOW_LED_PIN then level else yellow_led b;
       green_led := if pin =? GREEN_LED_PIN then level else green_led b;
       duty_pending := duty_pending b;
       buzzer_duty := buzzer_duty b |}).

Definition ledc_set_duty (duty : Z) : M unit :=
  emit (LedcSetDuty duty) ;;
  modify_board (fun b =>
    {| red_led := red_led b; yellow_led := yellow_led b; green_led := green_led b;
       duty_pending := duty; buzzer_duty := buzzer_duty b |}).

Definition ledc_update_duty : M unit :=
  emit LedcUpdateDuty ;;
  modify_board (fun b =>
    {| red_led := red_led b; yellow_led := yellow_led b; green_led := green_led b;
       duty_pending := duty_pending b; buzzer_duty := duty_pending b |}).

Definition ledc_channel_config (gpio_num duty : Z) : M unit :=
  emit (LedcChannelConfig gpio_num duty) ;;
  modify_board (fun b =>
    {| red_led := red_led b; yellow_led := yellow_led b; green_led := green_led b;
       duty_pending := duty; buzzer_duty := duty |}).

Definition vTaskDelay (ms : Z) : M unit := emit (VTaskDelay ms).

Definition esp_log (level : LogLevel) (line : LogLine) : M unit :=
  emit (EspLog level line).

(** *** The functions of main.c *)

Definition millis : M Z :=
  t <- esp_timer_get_time ;;
  ret (to_uint32 (to_uint64 t / 1000)).

Definition turn_off_all_lights : M unit :=
  gpio_set_level RED_LED_PIN 0 ;;
  gpio_set_level YELLOW_LED_PIN 0 ;;
  gpio_set_level GREEN_LED_PIN 0.

Definition init_traffic_leds : M unit :=
  emit (GpioConfig (2 ^ RED_LED_PIN + 2 ^ YELLOW_LED_PIN + 2 ^ GREEN_LED_PIN)) ;;
  turn_off_all_lights ;;
  esp_log LogInfo (LedsInitialized RED_LED_PIN YELLOW_LED_PIN GREEN_LED_PIN).

Definition init_buzzer : M unit :=
  emit (LedcTimerConfig BEEP_FREQUENCY) ;;
  ledc_channel_config BUZZER_PIN 0 ;;
  esp_log LogInfo (BuzzerInitialized BUZZER_PIN BEEP_FREQUENCY).

Definition set_traffic_light (state : TrafficLightState) : M unit :=
  turn_off_all_lights ;;
  if state =? STATE_RED then gpio_set_level RED_LED_PIN 1
  else if (state =? STATE_RED_TO_YELLOW) || (state =? STATE_GREEN_TO_YELLOW)
       then gpio_set_level YELLOW_LED_PIN 1
  else if state =? STATE_GREEN then gpio_set_level GREEN_LED_PIN 1
  else ret tt.

Definition beep_on : M unit :=
  ledc_set_duty LEDC_DUTY ;;
  ledc_update_duty ;;
  set_beep_active true.

Definition beep_off : M unit :=
  ledc_set_duty 0 ;;
  ledc_update_duty ;;
  set_beep_active false.

Definition transition_to_state (new_state : TrafficLightState) : M unit :=
  c <- get_context ;;
  from <- index state_names (current_state c) ;;
  to <- index state_names new_state ;;
  esp_log LogInfo (StateTransition from to) ;;
  set_current_state new_state ;;
  t <- millis ;;
  set_state_start_time t ;;
  set_last_beep_time 0 ;;
  beep_off ;;
  set_traffic_light new_state.

Definition handle_state_red : M unit :=
  now <- millis ;;
  c <- get_context ;;
  let elapsed := sub32 now (state_start_time c) in
  d <- index state_durations STATE_RED ;;
  if d <=? elapsed then transition_to_state STATE_RED_TO_YELLOW else ret tt.

Definition handle_state_red_to_yellow : M unit :=
  now <- millis ;;
  c <- get_context ;;
  let elapsed := sub32 now (state_start_time c) in
  d <- index state_durations STATE_RED_TO_YELLOW ;;
  if d <=? elapsed then transition_to_state STATE_GREEN else ret tt.

Definition handle_state_green : M unit :=
  current_time <- millis ;;
  c <- get_context ;;
  let elapsed := sub32 current_time (state_start_time c) in
  (if (last_beep_time c =? 0)
      || (BEEP_INTERVAL <=? sub32 current_time (last_beep_time c))
   then beep_on ;;
        set_last_beep_time current_time ;;
        esp_log LogDebug BeepSafeToCross
   else ret tt) ;;
  c1 <- get_context ;;
  (if beep_active c1
      && (BEEP_DURATION <=? sub32 current_time (last_beep_time c1))
   then beep_off
   else ret tt) ;;
  d <- index state_durations STATE_GREEN ;;
  if d <=? elapsed then
    beep_off ;;
    transition_to_state STATE_GREEN_TO_YELLOW
  else ret tt.

Definition handle_state_green_to_yellow : M unit :=
  now <- millis ;;
  c <- get_context ;;
  let elapsed := sub32 now (state_start_time c) in
  d <- index state_durations STATE_GREEN_TO_YELLOW ;;
  if d <=? elapsed then transition_to_state STATE_RED else ret tt.

Definition state_machine_run : M unit :=
  c <- get_context ;;
  let s := current_state c in
  if s =? STATE_RED then handle_state_red
  else if s =? STATE_RED_TO_YELLOW then handle_state_red_to_yellow
  else if s =? STATE_GREEN then handle_state_green
  else if s =? STATE_GREEN_TO_YELLOW then handle_state_green_to_yellow
  else esp_log LogError (UnknownState s) ;;
       transition_to_state STATE_RED.

(** [app_main] up to its [while (1)]. *)
Definition app_main_setup : M unit :=
  emit (EspLogLevelSet LogInfo) ;;
  esp_log LogInfo (Banner "================================================") ;;
  esp_log LogInfo (Banner "  Automated Traffic Light System") ;;
  esp_log LogInfo (Banner "  (Blind-Friendly with Audio Cues)") ;;
  esp_log LogInfo (Banner "================================================") ;;
  init_traffic_leds ;;
  init_buzzer ;;
  set_current_state STATE_RED ;;
  t <- millis ;;
  set_state_start_time t ;;
  esp_log LogInfo (Banner "Traffic light system started") ;;
  esp_log LogInfo (Banner "Audio cues enabled during GREEN phase") ;;
  esp_log LogInfo (Banner "================================================").

(** One pass through the body of [while (1)]. *)
Definition loop_iteration : M unit :=
  state_machine_run ;;
  vTaskDelay 10.

(** The first [n] passes of the loop. *)
Fixpoint app_main_loop (n : nat) : M unit :=
  match n with
  | O => ret tt
  | S k => loop_iteration ;; app_main_loop k
  end.

(** The static initialiser of [traffic_context]. *)
Definition initial_context : TrafficLightContext :=
  {| current_state := STATE_RED; state_start_time := 0;
     last_beep_time := 0; beep_active := false |}.

(** The world [app_main] is entered in, on a board [b] and against a
    clock [timer]. *)
Definition power_on (b : Board) (timer : nat -> Z) : World :=
  {| traffic_context := initial_context; board := b; trace := [];
     esp_timer := timer; timer_reads := 0 |}.

(** *** Vocabulary for the statements *)

(** The millisecond value the [k]-th clock read of a world yields. *)
Definition millis_at (w : World) (k : nat) : Z :=
  to_uint32 (to_uint64 (esp_timer w k) / 1000).

(** The context and board a computation ends with, when it ends. *)
Definition final {A : Type} (o : Outcome A) : World :=
  match o with
  | Done _ w => w
  | OutOfBounds w => w
  end.

Definition finished {A : Type} (o : Outcome A) : bool :=
  match o with
  | Done _ _ => true
  | OutOfBounds _ => false
  end.

Definition is_transition (e : Event) : bool :=
  match e with
  | EspLog LogInfo (StateTransition _ _) => true
  | _ => false
  end.

(** Number of state transitions a trace records. *)
Definition transitions (tr : list Event) : nat :=
  List.length (filter is_transition tr).

Definition is_beep_start (e : Event) : bool :=
  match e with
  | LedcSetDuty d => d =? LEDC_DUTY
  | _ => false
  end.

(** Number of times a trace turns the buzzer on. *)
Definition beep_starts (tr : list Event) : nat :=
  List.length (filter is_beep_start tr).

Definition valid_state (s : TrafficLightState) : Prop := 0 <= s < STATE_MAX.

(** The successor in the cycle, over the enum order. *)
Definition next_state (s : TrafficLightState) : TrafficLightState :=
  (s + 1) mod STATE_MAX.

(** The duration of a state, as the handlers read it from the table. *)
Definition state_duration (s : TrafficLightState) : Z :=
  nth (Z.to_nat s) state_durations 0.

(** The elapsed time the [k]-th poll from [w] computes, if the state is
    not left before: its clock reading minus the entry timestamp. *)
Definition elapsed_at (w : World) (k : nat) : Z :=
  sub32 (millis_at w (k + timer_reads w)) (state_start_time (traffic_context w)).

(** Clock time between the [k]-th poll from [w] and the poll before it
    (for the first poll: since the state was entered). *)
Definition poll_gap (w : World) (k : nat) : Z :=
  match k with
  | O => elapsed_at w 0
  | S j => sub32 (millis_at w (S j + timer_reads w)) (millis_at w (j + timer_reads w))
  end.

(** [w] with one more clock read made. *)
Definition after_clock_read (w : World) : World :=
  {| traffic_context := traffic_context w; board := board w; trace := trace w;
     esp_timer := esp_timer w; timer_reads := S (timer_reads w) |}.

(** [w] with one more call recorded. *)
Definition after_call (e : Event) (w : World) : World :=
  {| traffic_context := traffic_context w; board := board w;
     trace := trace w ++ [e];
     esp_timer := esp_timer w; timer_reads := timer_reads w |}.

(** *** Sample environments *)

(** A board with every output low. *)
Definition board_at_reset : Board :=
  {| red_led := 0; yellow_led := 0; green_led := 0;
     duty_pending := 0; buzzer_duty := 0 |}.

(** A clock whose [k]-th reading is [start_ms + k * step_ms] milliseconds. *)
Definition clock_from (start_ms step_ms : Z) : nat -> Z :=
  fun k => 1000 * (start_ms + step_ms * Z.of_nat k).

(** A world in state [s], entered at [start], before any call, against
    the clock [timer]. *)
Definition world_in (s : TrafficLightState) (start last_beep : Z) (active : bool)
    (timer : nat -> Z) : World :=
  {| traffic_context :=
       {| current_state := s; state_start_time := start;
          last_beep_time := last_beep; beep_active := active |};
     board := board_at_reset; trace := []; esp_timer := timer; timer_reads := 0 |}.

(** *** Vocabulary for the lights and the buzzer *)

(** Levels of the red, yellow and green LED. *)
Definition lights (b : Board) : Z * Z * Z := (red_led b, yellow_led b, green_led b).

(** The one light that belongs to a state. *)
Definition lights_for (s : TrafficLightState) : Z * Z * Z :=
  if s =? STATE_RED then (1, 0, 0)
  else if s =? STATE_GREEN then (0, 0, 1)
  else if (s =? STATE_RED_TO_YELLOW) || (s =? STATE_GREEN_TO_YELLOW) then (0, 1, 0)
  else (0, 0, 0).

(** Number of LEDs that are on. *)
Definition lights_on (b : Board) : Z := red_led b + yellow_led b + green_led b.

(** [w] after [n] passes of the loop that did nothing but read the clock
    and sleep. *)
Definition after_idle_passes (n : nat) (w : World) : World :=
  {| traffic_context := traffic_context w; board := board w;
     trace := trace w ++ repeat (VTaskDelay 10) n;
     esp_timer := esp_timer w; timer_reads := n + timer_reads w |}.

(** What holds of the lights and the buzzer at the top of the loop: the
    buzzer's duty follows [beep_active], a beep is only ever active in
    GREEN, and the lights show the state once a transition has been made;
    before the first transition (still in the initial RED) they are all
    off. *)
Definition outputs_consistent (w : World) : Prop :=
  let c := traffic_context w in
  valid_state (current_state c) /\
  buzzer_duty (board w) = (if beep_active c then LEDC_DUTY else 0) /\
  (beep_active c = true -> current_state c = STATE_GREEN) /\
  (((0 < transitions (trace w))%nat /\ lights (board w) = lights_for (current_state c)) \/
   (transitions (trace w) = 0%nat /\ current_state c = STATE_RED /\
    lights (board w) = (0, 0, 0))).

(** Whether the GREEN handler starts a beep on a poll that reads [now]. *)
Definition beep_due (c : TrafficLightContext) (now : Z) : bool :=
  (last_beep_time c =? 0) || (BEEP_INTERVAL <=? sub32 now (last_beep_time c)).

(** The worlds the program passes through at the top of its loop. *)
Inductive reachable : World -> Prop :=
| reach_setup (b : Board) (timer : nat -> Z) (w : World) :
    app_main_setup (power_on b timer) = Done tt w -> reachable w
| reach_loop (w w' : World) :
    reachable w -> loop_iteration w = Done tt w' -> reachable w'.

(** *** Tactics that run the code on a symbolic world *)

Ltac run_code :=
repeat (progress
  (cbn -[sub32 to_uint32 to_uint64 Z.div transitions beep_starts];
   try (progress unfold index);
   cbv [Z.to_nat Pos.to_nat Pos.iter_op])).

Ltac branch :=
match goal with
| |- context [if ?c then _ else _] =>
    lazymatch c with
    | context [if _ then _ else _] => fail
    | _ => destruct c eqn:?; run_code
    end
end.

Ltac unfold_handlers :=
unfold state_machine_run, handle_state_red, handle_state_red_to_yellow,
  handle_state_green, handle_state_green_to_yellow, transition_to_state,
  STATE_RED, STATE_RED_TO_YELLOW, STATE_GREEN, STATE_GREEN_TO_YELLOW.

Ltac open_world w :=
destruct w as [[?s ?st ?lb ?ba] ?b ?tr ?tm ?r];
unfold elapsed_at, millis_at, state_duration, after_clock_read, after_call in *;
cbn [traffic_context current_state state_start_time last_beep_time beep_active
     board trace timer_reads esp_timer Nat.add] in *.

End TrafficLight.

Module SirenProofs.
Import CInt Siren.

Lemma sweep_inv_initial : sweep_inv initial.
Proof.
  unfold sweep_inv, initial; cbn.
  repeat split; try lia; try discriminate.
  exists 120; reflexivity.
Qed.

Lemma sweep_step_inv (g : Globals) : sweep_inv g -> sweep_inv (sweep_step g).
Proof.
  unfold sweep_inv, sweep_step, FREQ_MIN, FREQ_MAX, FREQ_STEP.
  intros (Hr & [q Hq] & Hup & Hdn).
  destruct (freq_up g) eqn:E; cbn [buzzer_freq freq_up].
  - specialize (Hup eq_refl).
    destruct (Z.leb_spec 1200 (buzzer_freq g + 5)); repeat split;
      try lia; try discriminate; exists (q + 1); lia.
  - specialize (Hdn eq_refl).
    destruct (Z.leb_spec (buzzer_freq g - 5) 600); repeat split;
      try lia; try discriminate; exists (q - 1); lia.
Qed.

Lemma led_block_freq now g :
  buzzer_freq (fst (led_block now g)) = buzzer_freq g /\
  freq_up (fst (led_block now g)) = freq_up g.
Proof. unfold led_block; destruct (_ <=? _); cbn; auto. Qed.

Lemma loop_body_inv t g : sweep_inv g -> sweep_inv (fst (loop_body t g)).
Proof.
  intros H. unfold loop_body.
  pose proof (led_block_freq (to_uint64 (Z.quot t 1000)) g) as [Hf Hu].
  destruct (led_block _ g) as [g1 o1]; cbn [fst] in *.
  assert (H1 : sweep_inv g1) by (unfold sweep_inv in *; rewrite Hf, Hu; exact H).
  unfold buzzer_block.
  destruct (_ <=? _); cbn [fst]; [|exact H1].
  apply sweep_step_inv in H1. exact H1.
Qed.

Lemma run_inv ts : forall g, sweep_inv g -> sweep_inv (fst (run ts g)).
Proof.
  induction ts as [|t ts IH]; intros g H; cbn [run]; [exact H|].
  pose proof (loop_body_inv t g H) as H1.
  destruct (loop_body t g) as [g1 o1]; cbn [fst] in H1.
  specialize (IH g1 H1).
  destruct (run ts g1) as [g2 o2]; exact IH.
Qed.

Lemma loop_body_outputs t g :
  sweep_inv g -> Forall output_in_range (snd (loop_body t g)).
Proof.
  intros H. unfold loop_body.
  pose proof (led_block_freq (to_uint64 (Z.quot t 1000)) g) as [Hf Hu].
  assert (Hled : Forall output_in_range (snd (led_block (to_uint64 (Z.quot t 1000)) g))).
  { unfold led_block; destruct (_ <=? _); cbn; repeat constructor. }
  destruct (led_block _ g) as [g1 o1]; cbn [fst snd] in *.
  assert (H1 : sweep_inv g1) by (unfold sweep_inv in *; rewrite Hf, Hu; exact H).
  unfold buzzer_block.
  destruct (_ <=? _); cbn [snd]; apply Forall_app; split; auto.
  constructor; [|constructor].
  apply sweep_step_inv in H1. destruct H1 as [Hr _]. exact Hr.
Qed.

Lemma run_outputs ts : forall g, sweep_inv g -> Forall output_in_range (snd (run ts g)).
Proof.
  induction ts as [|t ts IH]; intros g H; cbn [run]; [constructor|].
  pose proof (loop_body_inv t g H) as H1.
  pose proof (loop_body_outputs t g H) as H2.
  destruct (loop_body t g) as [g1 o1]; cbn [fst snd] in H1, H2.
  specialize (IH g1 H1).
  destruct (run ts g1) as [g2 o2]; cbn [snd] in *.
  apply Forall_app; split; assumption.
Qed.

(** The sweep after [k] steps, in closed form. *)
Lemma sweep_iter (k : nat) :
  sweep_state (Nat.iter k sweep_step initial) =
  (Z.of_nat k mod 240 <? 120, triangle (Z.of_nat k)).
Proof.
  induction k as [|k IH]; [reflexivity|].
  rewrite Nat.iter_succ, Nat2Z.inj_succ.
  set (g := Nat.iter k sweep_step initial) in *.
  set (n := Z.of_nat k) in *.
  assert (Hn : 0 <= n) by (subst n; lia).
  unfold sweep_state in *.
  assert (Hu : freq_up g = (n mod 240 <? 120)) by congruence.
  assert (Hf : buzzer_freq g = triangle n) by congruence.
  clearbody g n. clear IH.
  unfold sweep_step. rewrite Hu, Hf.
  unfold Z.succ, triangle, FREQ_MIN, FREQ_MAX, FREQ_STEP.
  pose proof (Z.mod_pos_bound n 240 ltac:(lia)) as Hb.
  assert (Hs : (n + 1) mod 240 = if n mod 240 =? 239 then 0 else n mod 240 + 1).
  { destruct (Z.eqb_spec (n mod 240) 239) as [E|E].
    - rewrite <- (Z.mod_small 0 240) by lia.
      rewrite <- Zplus_mod_idemp_l, E. reflexivity.
    - rewrite <- Zplus_mod_idemp_l. apply Z.mod_small. lia. }
  rewrite Hs. clear Hs Hu Hf.
  generalize dependent (n mod 240). intros r Hb.
  destruct (Z.ltb_spec r 120); cbn [freq_up buzzer_freq];
    destruct (Z.eqb_spec r 239); try lia;
    repeat match goal with
           | |- context [?a <=? ?b] => destruct (Z.leb_spec a b); try lia
           | |- context [?a <? ?b] => destruct (Z.ltb_spec a b); try lia
           end; f_equal; lia.
Qed.

Lemma sweep_step_state g g' :
  sweep_state g = sweep_state g' -> sweep_state (sweep_step g) = sweep_state (sweep_step g').
Proof.
  unfold sweep_state. intros H. injection H as Hu Hf.
  unfold sweep_step. rewrite Hu, Hf. destruct (freq_up g'); reflexivity.
Qed.

Lemma sweep_iter_state k : forall g g',
  sweep_state g = sweep_state g' ->
  sweep_state (Nat.iter k sweep_step g) = sweep_state (Nat.iter k sweep_step g').
Proof.
  induction k as [|k IH]; intros g g' H; [exact H|].
  rewrite !Nat.iter_succ. apply sweep_step_state, IH, H.
Qed.

Lemma loop_body_state t g :
  sweep_state (fst (loop_body t g)) = sweep_state g \/
  sweep_state (fst (loop_body t g)) = sweep_state (sweep_step g).
Proof.
  unfold loop_body.
  pose proof (led_block_freq (to_uint64 (Z.quot t 1000)) g) as [Hf Hu].
  destruct (led_block _ g) as [g1 o1]; cbn [fst] in *.
  assert (E : sweep_state g1 = sweep_state g) by (unfold sweep_state; congruence).
  unfold buzzer_block. destruct (_ <=? _); cbn [fst]; [right|left; exact E].
  rewrite <- (sweep_step_state _ _ E). reflexivity.
Qed.

Lemma run_is_iterated_sweep ts : forall g,
  exists k : nat, sweep_state (fst (run ts g)) = sweep_state (Nat.iter k sweep_step g).
Proof.
  induction ts as [|t ts IH]; intros g; cbn [run]; [exists 0%nat; reflexivity|].
  pose proof (loop_body_state t g) as Hs.
  destruct (loop_body t g) as [g1 o1]; cbn [fst] in Hs.
  destruct (IH g1) as [k Hk].
  destruct (run ts g1) as [g2 o2]; cbn [fst] in *.
  destruct Hs as [Hs|Hs].
  - exists k. rewrite Hk. apply sweep_iter_state, Hs.
  - exists (S k). rewrite Hk, Nat.iter_succ_r. apply sweep_iter_state, Hs.
Qed.

(** C8: whatever the timer readings, the siren's frequency stays between
    600 and 1200 Hz on the 5 Hz grid, and so does every frequency it
    programs; the sweep itself is the triangle wave that climbs by 5 from
    600 to 1200 in 120 steps and descends by 5 back to 600 in the next 120. *)
Theorem siren_frequency_stays_in_range :
  (FREQ_MIN = 600 /\ FREQ_MAX = 1200 /\ FREQ_STEP = 5) /\
  (forall timer : list Z,
     let g := fst (run timer initial) in
     FREQ_MIN <= buzzer_freq g <= FREQ_MAX /\
     (FREQ_STEP | buzzer_freq g) /\
     Forall output_in_range (snd (run timer initial)) /\
     exists k : nat, sweep_state g = sweep_state (Nat.iter k sweep_step initial)) /\
  (forall k : nat,
     let f := buzzer_freq (Nat.iter k sweep_step initial) in
     let r := Z.of_nat k mod 240 in
     (r <= 120 -> f = 600 + 5 * r) /\
     (120 <= r -> f = 1200 - 5 * (r - 120))).
Proof.
  split; [repeat split|]. split.
  - intros timer g.
    pose proof (run_inv timer initial sweep_inv_initial) as (Hr & Hd & _).
    split; [exact Hr|]. split; [exact Hd|]. split.
    + apply run_outputs, sweep_inv_initial.
    + apply run_is_iterated_sweep.
  - intros k f r.
    pose proof (sweep_iter k) as H. unfold sweep_state in H.
    assert (Hf : f = triangle (Z.of_nat k)) by (unfold f; congruence).
    unfold triangle, FREQ_MIN, FREQ_MAX, FREQ_STEP in Hf. fold r in Hf.
    destruct (Z.leb_spec r 120); split; intros; lia.
Qed.

(** ** Further properties of the siren *)




Lemma sub64_diag a : sub64 a a = 0.
Proof. unfold sub64. rewrite Z.sub_diag. reflexivity. Qed.

Lemma sweep_step_times g :
  last_buzzer_time (sweep_step g) = last_buzzer_time g /\
  last_led_time (sweep_step g) = last_led_time g.
Proof. unfold sweep_step. destruct (freq_up g); cbn; auto. Qed.

Lemma led_block_settled now g :
  (LED_TIME_MS <=? sub64 now (last_led_time (fst (led_block now g)))) = false.
Proof.
  unfold led_block.
  destruct (LED_TIME_MS <=? sub64 now (last_led_time g)) eqn:E; cbn [fst last_led_time].
  - rewrite sub64_diag. reflexivity.
  - exact E.
Qed.

Lemma buzzer_block_settled now g :
  (BUZZER_TIME_MS <=? sub64 now (last_buzzer_time (fst (buzzer_block now g)))) = false /\
  last_led_time (fst (buzzer_block now g)) = last_led_time g.
Proof.
  unfold buzzer_block.
  destruct (BUZZER_TIME_MS <=? sub64 now (last_buzzer_time g)) eqn:E;
    cbn [fst last_buzzer_time last_led_time].
  - rewrite sub64_diag. split; [reflexivity|apply sweep_step_times].
  - split; [exact E|reflexivity].
Qed.

(** X8: a second pass of the loop at the same timer reading writes no
    LED level, does not reprogram the buzzer timer and changes no global
    variable.  (The pass still reads the clock and ends in [vTaskDelay(1)];
    [Output] records neither.) *)
Theorem siren_same_reading_is_idle (t : Z) (g : Globals) :
  loop_body t (fst (loop_body t g)) = (fst (loop_body t g), []).
Proof.
  unfold loop_body at 2 3.
  set (now := to_uint64 (Z.quot t 1000)).
  pose proof (led_block_settled now g) as HL.
  destruct (led_block now g) as [g1 o1]. cbn [fst] in HL.
  pose proof (buzzer_block_settled now g1) as [HB HLB].
  destruct (buzzer_block now g1) as [g2 o2]. cbn [fst] in *.
  unfold loop_body. fold now.
  unfold led_block. rewrite HLB, HL.
  unfold buzzer_block. rewrite HB. reflexivity.
Qed.

Lemma frequency_updates_app a b :
  frequency_updates (a ++ b) = frequency_updates a + frequency_updates b.
Proof.
  unfold frequency_updates. rewrite filter_app, length_app. lia.
Qed.

Lemma sub64_exact a b : 0 <= b <= a -> a < UINT64_MOD -> sub64 a b = a - b.
Proof. intros H1 H2. unfold sub64. apply Z.mod_small. lia. Qed.

Lemma to_uint64_range z : 0 <= to_uint64 z < UINT64_MOD.
Proof. unfold to_uint64. apply Z.mod_pos_bound. reflexivity. Qed.

Lemma last_cons_indep (y : Z) (rest : list Z) (d1 d2 : Z) :
  last (y :: rest) d1 = last (y :: rest) d2.
Proof.
  revert y. induction rest as [|a rest IH]; intros y; [reflexivity|].
  change (last (a :: rest) d1 = last (a :: rest) d2). apply IH.
Qed.

Lemma loop_body_rate t g :
  let now := to_uint64 (Z.quot t 1000) in
  0 <= last_buzzer_time g <= now ->
  let g' := fst (loop_body t g) in
  last_buzzer_time g <= last_buzzer_time g' <= now /\
  BUZZER_TIME_MS * frequency_updates (snd (loop_body t g))
  <= last_buzzer_time g' - last_buzzer_time g.
Proof.
  intros now H. unfold loop_body, led_block, buzzer_block. fold now.
  pose proof (to_uint64_range (Z.quot t 1000)) as Hr. fold now in Hr.
  destruct (LED_TIME_MS <=? _); cbn [fst snd last_buzzer_time];
    destruct (Z.leb_spec BUZZER_TIME_MS (sub64 now (last_buzzer_time g))) as [Hb|Hb];
    cbn [fst snd last_buzzer_time]; rewrite ?frequency_updates_app;
    unfold frequency_updates; cbn [filter is_timer_config List.length app];
    try rewrite sub64_exact in Hb by lia; unfold BUZZER_TIME_MS in *; lia.
Qed.

(** X9: the sweep is rate limited.  Against a clock that does not go
    backwards, the frequency is reprogrammed at most once per
    [BUZZER_TIME_MS]: five times the number of updates is at most the time
    by which [last_buzzer_time] has advanced, and that never runs ahead of
    the clock. *)
Theorem siren_sweep_rate_limited (timer : list Z) : forall g : Globals,
  0 <= last_buzzer_time g ->
  ascending_from (last_buzzer_time g) (nows timer) ->
  let g' := fst (run timer g) in
  BUZZER_TIME_MS * frequency_updates (snd (run timer g))
  <= last_buzzer_time g' - last_buzzer_time g /\
  last_buzzer_time g' <= last (nows timer) (last_buzzer_time g).
Proof.
  induction timer as [|t ts IH]; intros g H0 Hasc.
  - cbn. unfold frequency_updates. cbn. lia.
  - cbn [nows map ascending_from] in Hasc. destruct Hasc as [Hle Hasc].
    pose proof (loop_body_rate t g (conj H0 Hle)) as (Hb & Hrate).
    cbn [run]. destruct (loop_body t g) as [g1 o1]. cbn [fst snd] in *.
    assert (Hasc1 : ascending_from (last_buzzer_time g1) (nows ts)).
    { fold (nows ts) in Hasc. destruct (nows ts) as [|y rest]; [exact I|].
      cbn in *. split; [lia|tauto]. }
    specialize (IH g1 ltac:(lia) Hasc1).
    destruct (run ts g1) as [g2 o2]. cbn [fst snd] in *.
    destruct IH as [IH1 IH2].
    rewrite frequency_updates_app. split; [lia|].
    cbn [nows map]. fold (nows ts).
    destruct (nows ts) as [|y rest] eqn:En.
    + cbn in *. lia.
    + change (last (to_uint64 (Z.quot t 1000) :: y :: rest) (last_buzzer_time g))
        with (last (y :: rest) (last_buzzer_time g)).
      rewrite (last_cons_indep y rest (last_buzzer_time g) (last_buzzer_time g1)).
      exact IH2.
Qed.

Lemma siren_sweep_rate_witness :
  let timer := [5000; 7000; 10000; 16000] in
  frequency_updates (snd (run timer initial)) = 3 /\
  BUZZER_TIME_MS * frequency_updates (snd (run timer initial))
  <= last_buzzer_time (fst (run timer initial)) - 0.
Proof.
  split; [reflexivity|].
  refine (proj1 (siren_sweep_rate_limited [5000; 7000; 10000; 16000] initial _ _)).
  - discriminate.
  - vm_compute. repeat split; discriminate.
Defined.

(** X10: the sweep is periodic: 240 steps (120 up, 120 down) bring the
    frequency and the direction back to where they were. *)
Theorem siren_sweep_period (k : nat) :
  sweep_state (Nat.iter (k + 240) sweep_step initial) =
  sweep_state (Nat.iter k sweep_step initial).
Proof.
  rewrite !sweep_iter. unfold triangle.
  replace (Z.of_nat (k + 240)) with (Z.of_nat k + 1 * 240) by lia.
  rewrite Z.mod_add by lia. reflexivity.
Qed.

End SirenProofs.

Module MelodyProofs.
Import CInt Melody.

Lemma calc_duration_plain d : 0 < d -> calc_duration d = Some (Z.quot WHOLE_NOTE d).
Proof.
  intros H. unfold calc_duration, int_div.
  destruct (Z.ltb_spec 0 d); [|lia].
  destruct (Z.eqb_spec d 0); [lia|]. reflexivity.
Qed.

Lemma calc_duration_dotted d :
  INT_MIN < d < 0 ->
  calc_duration d = Some (times_one_and_a_half (Z.quot WHOLE_NOTE (Z.abs d))).
Proof.
  intros H. unfold calc_duration, int_abs, int_div.
  destruct (Z.ltb_spec 0 d); [lia|].
  destruct (Z.eqb_spec d INT_MIN); [lia|].
  destruct (Z.eqb_spec (Z.abs d) 0); [lia|]. reflexivity.
Qed.

Lemma rows_defined :
  Forall (fun row => snd row <> 0 /\ exists duration, calc_duration (snd row) = Some duration)
         imperial_march_raw.
Proof.
  unfold imperial_march_raw.
  repeat (constructor; [split; [discriminate|eexists; reflexivity]|]).
  constructor.
Qed.

(** C9: [calc_duration] divides [WHOLE_NOTE] by a positive divider and by
    the absolute value of a negative one (then takes one and a half), and
    has no value for divider 0; every divider in the table is nonzero, so
    the duration of each of the [MELODY_LENGTH] notes is defined and
    [play_melody] runs through. *)
Theorem melody_durations_defined (i : nat) :
  (i < MELODY_LENGTH)%nat ->
  calc_duration 0 = None /\
  (forall d, 0 < d -> calc_duration d = Some (Z.quot WHOLE_NOTE d)) /\
  (forall d, INT_MIN < d < 0 ->
     calc_duration d = Some (times_one_and_a_half (Z.quot WHOLE_NOTE (Z.abs d)))) /\
  (exists frequency divider duration,
     nth_error imperial_march_raw i = Some (frequency, divider) /\
     divider <> 0 /\
     calc_duration divider = Some duration) /\
  (exists events, play_melody = Some events).
Proof.
  intros Hi.
  split; [reflexivity|]. split; [exact calc_duration_plain|].
  split; [exact calc_duration_dotted|]. split.
  - destruct (nth_error imperial_march_raw i) as [[f dv]|] eqn:E.
    + pose proof rows_defined as HF. rewrite Forall_forall in HF.
      destruct (HF (f, dv) (nth_error_In _ _ E)) as (Hnz & dur & Hd).
      exists f, dv, dur. auto.
    + apply nth_error_None in E. unfold MELODY_LENGTH in Hi. lia.
  - eexists. vm_compute. reflexivity.
Qed.

Lemma melody_durations_witness :
  (0 < MELODY_LENGTH)%nat /\
  exists frequency divider duration,
    nth_error imperial_march_raw 0 = Some (frequency, divider) /\
    divider <> 0 /\
    calc_duration divider = Some duration.
Proof.
  assert (H : (0 < MELODY_LENGTH)%nat) by (vm_compute; lia).
  split; [exact H|].
  exact (proj1 (proj2 (proj2 (proj2 (melody_durations_defined 0 H))))).
Defined.

(** ** Further properties of the melody player *)

(** X11: [calc_duration] has no value exactly for the dividers 0
    (division by zero) and [INT_MIN] (its absolute value is not an [int]). *)
Theorem calc_duration_undefined_iff (divider : Z) :
  calc_duration divider = None <-> divider = 0 \/ divider = INT_MIN.
Proof.
  unfold calc_duration, int_abs, int_div.
  destruct (Z.ltb_spec 0 divider) as [Hp|Hn].
  - destruct (Z.eqb_spec divider 0); [lia|].
    cbn. split; [discriminate|]. unfold INT_MIN. lia.
  - destruct (Z.eqb_spec divider INT_MIN) as [E|E]; [tauto|].
    destruct (Z.eqb_spec (Z.abs divider) 0) as [E0|E0].
    + split; [left; lia|reflexivity].
    + split; [discriminate|]. intros [H|H]; [lia|contradiction].
Qed.

(** X12: a defined duration is never negative and never above one and a
    half whole notes, a plain one never above a whole note, and it is 0
    exactly when the divider exceeds [WHOLE_NOTE] in absolute value. *)
Theorem calc_duration_range (divider duration : Z) :
  calc_duration divider = Some duration ->
  0 <= duration <= 3000 /\
  (0 < divider -> duration <= WHOLE_NOTE) /\
  (duration = 0 <-> WHOLE_NOTE < Z.abs divider).
Proof.
  unfold calc_duration, int_abs, int_div.
  change WHOLE_NOTE with 2000.
  destruct (Z.ltb_spec 0 divider) as [Hp|Hn].
  - destruct (Z.eqb_spec divider 0); [lia|]. cbn -[Z.mul Z.quot Z.div Z.abs]. intros H. injection H as <-.
    rewrite Z.quot_div_nonneg by lia.
    pose proof (Z.div_pos 2000 divider ltac:(lia) Hp).
    pose proof (Z.div_le_upper_bound 2000 divider 2000 Hp ltac:(nia)).
    split; [lia|]. split; [lia|].
    rewrite Z.abs_eq by lia. split.
    + intros E. destruct (Z_lt_le_dec 2000 divider); [assumption|].
      pose proof (Z.div_le_lower_bound 2000 divider 1 Hp ltac:(lia)). lia.
    + intros E. apply Z.div_small. lia.
  - destruct (Z.eqb_spec divider INT_MIN) as [E|E]; [discriminate|].
    destruct (Z.eqb_spec (Z.abs divider) 0) as [E0|E0]; [discriminate|].
    cbn -[Z.mul Z.quot Z.div Z.abs times_one_and_a_half]. intros H. injection H as <-.
    unfold times_one_and_a_half.
    set (a := Z.abs divider) in *. assert (Ha : 0 < a) by (subst a; lia).
    rewrite (Z.quot_div_nonneg 2000 a) by lia.
    pose proof (Z.div_pos 2000 a ltac:(lia) Ha).
    pose proof (Z.div_le_upper_bound 2000 a 2000 Ha ltac:(nia)).
    rewrite Z.quot_div_nonneg by lia.
    split; [|split; [lia|]].
    + split; [apply Z.div_pos; lia|].
      apply Z.div_le_upper_bound; lia.
    + split.
      * intros E1. destruct (Z_lt_le_dec 2000 a); [assumption|].
        pose proof (Z.div_le_lower_bound 2000 a 1 Ha ltac:(lia)).
        pose proof (Z.div_le_lower_bound (3 * (2000 / a)) 2 1 ltac:(lia) ltac:(lia)). lia.
      * intros E1. rewrite (Z.div_small 2000 a) by lia. reflexivity.
Qed.

Lemma calc_duration_range_witness :
  calc_duration (-8) = Some 375 /\ 0 <= 375 <= 3000.
Proof.
  split; [reflexivity|].
  exact (proj1 (calc_duration_range (-8) 375 eq_refl)).
Defined.

(** X13: over any table, the loop of [play_melody] fails exactly when
    some row has divider 0 or [INT_MIN]; otherwise it plays every row once,
    in order, each with the duration [calc_duration] gives its divider. *)
Theorem play_rows_fails_iff (rows : list (Z * Z)) :
  (play_rows rows = None <-> Exists bad_row rows) /\
  (forall events, play_rows rows = Some events ->
     events = flat_map (fun row => play_note (fst row) (duration_or_zero (snd row))) rows).
Proof.
  induction rows as [|[f dv] rows [IH1 IH2]]; cbn [play_rows flat_map].
  - split.
    + split; [discriminate|]. intros H. inversion H.
    + intros events H. injection H as <-. reflexivity.
  - unfold duration_or_zero. cbn [fst snd].
    pose proof (calc_duration_undefined_iff dv) as Hd.
    destruct (calc_duration dv) as [d|].
    + destruct (play_rows rows) as [evs|].
      * split.
        -- split; [discriminate|]. intros H. inversion H as [? ? Hb|? ? Hb]; subst.
           ++ unfold bad_row in Hb. cbn in Hb. apply Hd in Hb. discriminate.
           ++ apply IH1 in Hb. discriminate.
        -- intros events H. injection H as <-. f_equal. apply IH2. reflexivity.
      * split.
        -- split; [|reflexivity]. intros _. apply Exists_cons_tl, IH1. reflexivity.
        -- discriminate.
    + split.
      * split; [|reflexivity]. intros _. apply Exists_cons_hd.
        unfold bad_row. cbn. apply Hd. reflexivity.
      * discriminate.
Qed.

End MelodyProofs.

Module MorseProofs.
Import CInt Morse.

Lemma morse_buffer_add_trace str st : trace (morse_buffer_add str st) = trace st.
Proof. unfold morse_buffer_add. destruct (_ <? _); reflexivity. Qed.

Lemma transmit_symbol_frame sym buf pos tr :
  transmit_symbol sym {| morse_buffer := buf; morse_pos := pos; trace := tr |} =
  let r := transmit_symbol sym {| morse_buffer := buf; morse_pos := pos; trace := [] |} in
  {| morse_buffer := morse_buffer r; morse_pos := morse_pos r;
     trace := (tr ++ trace r)%list |}.
Proof.
  unfold transmit_symbol, signal_on, signal_off, emit, morse_buffer_add.
  cbn [morse_buffer morse_pos trace].
  repeat match goal with
         | |- context [if ?c then _ else _] => destruct c
         end; cbn [morse_buffer morse_pos trace app]; rewrite ?app_nil_r; reflexivity.
Qed.

Lemma pattern_frame pattern : forall buf pos tr,
  fold_left (fun acc sym => transmit_symbol sym acc) pattern
    {| morse_buffer := buf; morse_pos := pos; trace := tr |} =
  let r := fold_left (fun acc sym => transmit_symbol sym acc) pattern
             {| morse_buffer := buf; morse_pos := pos; trace := [] |} in
  {| morse_buffer := morse_buffer r; morse_pos := morse_pos r;
     trace := (tr ++ trace r)%list |}.
Proof.
  induction pattern as [|sym pattern IH]; intros buf pos tr; cbn [fold_left].
  - cbn. rewrite app_nil_r. reflexivity.
  - rewrite (transmit_symbol_frame sym buf pos tr). cbv zeta.
    destruct (transmit_symbol sym {| morse_buffer := buf; morse_pos := pos; trace := [] |})
      as [buf1 pos1 tr1]. cbn [morse_buffer morse_pos trace].
    rewrite (IH buf1 pos1 (tr ++ tr1)%list), (IH buf1 pos1 tr1). cbv zeta.
    cbn [morse_buffer morse_pos trace]. rewrite app_assoc. reflexivity.
Qed.

(** C10: the gaps inside a letter are stored as [SYMBOL_SPACE] = 200, not
    as the enumerator [SPACE_SYMBOL] = 2; [transmit_symbol] does nothing at
    all for 200, so from any state two marks of a letter with such a gap
    between them make exactly the calls of the first mark followed at once
    by the calls of the second, with no off time; and every cycle, whatever
    came before, makes three marks back to back per letter, separated only
    by the letter and word gaps, and logs the text "... --- ...". *)
Theorem sos_symbol_gaps_are_skipped :
  (SYMBOL_SPACE = 200 /\ SPACE_SYMBOL = 2) /\
  sos_pattern =
    [ DOT; 200; DOT; 200; DOT; SPACE_LETTER;
      DASH; 200; DASH; 200; DASH; SPACE_LETTER;
      DOT; 200; DOT; 200; DOT; SPACE_WORD ] /\
  ~ In SPACE_SYMBOL sos_pattern /\
  (forall st, transmit_symbol SYMBOL_SPACE st = st) /\
  (forall st a b, (a = DOT \/ a = DASH) -> (b = DOT \/ b = DASH) ->
     trace (transmit_symbol b (transmit_symbol SYMBOL_SPACE (transmit_symbol a st)))
     = (trace st ++ mark_calls (mark_duration a) ++ mark_calls (mark_duration b))%list /\
     off_time 1 (mark_calls (mark_duration a) ++ mark_calls (mark_duration b)) = 0) /\
  (forall st,
     morse_buffer (transmit_sos st) = "... --- ..."%string /\
     trace (transmit_sos st) =
       (trace st
        ++ (mark_calls 200 ++ mark_calls 200 ++ mark_calls 200 ++ gap_calls 600
            ++ mark_calls 600 ++ mark_calls 600 ++ mark_calls 600 ++ gap_calls 600
            ++ mark_calls 200 ++ mark_calls 200 ++ mark_calls 200 ++ gap_calls 1400)
        ++ [LogTransmitted "... --- ..."%string])%list) /\
  off_time 0 (trace (transmit_sos start)) = LETTER_SPACE + LETTER_SPACE + WORD_SPACE.
Proof.
  split; [split; reflexivity|]. split; [reflexivity|]. split.
  { cbn. intros H. repeat (destruct H as [H|H]; [discriminate H|]). exact H. }
  split; [reflexivity|]. split; [|split; [|reflexivity]].
  - intros st a b Ha Hb.
    assert (Hgap : forall s, transmit_symbol SYMBOL_SPACE s = s) by reflexivity.
    rewrite Hgap.
    destruct Ha as [-> | ->], Hb as [-> | ->];
      unfold transmit_symbol; cbn [Z.eqb DOT DASH Pos.eqb];
      unfold signal_on, emit; cbn [trace];
      rewrite ?morse_buffer_add_trace; cbn [trace];
      rewrite ?morse_buffer_add_trace, <- app_assoc;
      (split; reflexivity).
  - intros st. unfold transmit_sos, morse_buffer_clear.
    rewrite (pattern_frame sos_pattern EmptyString 0 (trace st)). cbv zeta.
    unfold emit. cbn [morse_buffer morse_pos trace].
    split; [reflexivity|].
    rewrite <- app_assoc. reflexivity.
Qed.

(** ** Further properties of the Morse beacon *)

Lemma string_length_append (a b : string) :
  String.length (String.append a b) = (String.length a + String.length b)%nat.
Proof. induction a as [|c a IH]; cbn; [reflexivity|]. rewrite IH. reflexivity. Qed.

Lemma substring_whole (s : string) : String.substring 0 (String.length s) s = s.
Proof. induction s as [|c s IH]; cbn; [reflexivity|]. rewrite IH. reflexivity. Qed.

(** X14: [morse_buffer_add] cannot overflow [morse_buffer].  On a state
    whose [morse_pos] is the text length and below 127, it appends the
    string when the result still leaves room for the NUL, and otherwise
    drops the string without any change; either way the bound is kept. *)
Theorem morse_buffer_add_in_bounds (str : string) (st : State) :
  buffer_ok st ->
  Z.of_nat (String.length str) <= INT_MAX ->
  let len := Z.of_nat (String.length str) in
  buffer_ok (morse_buffer_add str st) /\
  (morse_pos st + len < MORSE_BUFFER_SIZE - 1 ->
   morse_buffer (morse_buffer_add str st) = String.append (morse_buffer st) str /\
   morse_pos (morse_buffer_add str st) = morse_pos st + len) /\
  (MORSE_BUFFER_SIZE - 1 <= morse_pos st + len -> morse_buffer_add str st = st).
Proof.
  intros [Hpos Hlt] Hlen len. unfold morse_buffer_add. fold len.
  unfold MORSE_BUFFER_SIZE, INT_MAX in *.
  assert (Hsmall : to_uint32 (morse_pos st + len) = morse_pos st + len).
  { unfold to_uint32, UINT32_MOD. apply Z.mod_small. lia. }
  rewrite Hsmall.
  destruct (Z.ltb_spec (morse_pos st + len) (128 - 1)) as [Hroom|Hfull].
  - assert (Hsub : String.substring 0 (Z.to_nat (morse_pos st)) (morse_buffer st)
                   = morse_buffer st).
    { rewrite Hpos, Nat2Z.id. apply substring_whole. }
    rewrite Hsub. cbn [morse_buffer morse_pos]. split; [|split].
    + unfold buffer_ok, MORSE_BUFFER_SIZE. cbn [morse_buffer morse_pos].
      rewrite string_length_append. split; lia.
    + intros _. split; reflexivity.
    + intros H. lia.
  - split; [|split].
    + unfold buffer_ok, MORSE_BUFFER_SIZE. split; [exact Hpos|exact Hlt].
    + intros H. lia.
    + intros _. reflexivity.
Qed.

Lemma morse_buffer_add_witness :
  buffer_ok (morse_buffer_add "-"%string (morse_buffer_add "."%string start)) /\
  morse_buffer (morse_buffer_add "."%string start) = "."%string.
Proof.
  assert (H0 : buffer_ok start) by (split; [reflexivity|reflexivity]).
  pose proof (morse_buffer_add_in_bounds "."%string start H0
                ltac:(vm_compute; discriminate)) as H1.
  split.
  - exact (proj1 (morse_buffer_add_in_bounds "-"%string
                    (morse_buffer_add "."%string start) (proj1 H1)
                    ltac:(vm_compute; discriminate))).
  - reflexivity.
Defined.

Lemma emit_buffer_ok evs st : buffer_ok st -> buffer_ok (emit evs st).
Proof. intros H. exact H. Qed.

Lemma transmit_symbol_buffer_ok sym st :
  buffer_ok st -> buffer_ok (transmit_symbol sym st).
Proof.
  intros H. unfold transmit_symbol, signal_on, signal_off.
  assert (Hadd : forall str, Z.of_nat (String.length str) <= INT_MAX ->
                             buffer_ok (morse_buffer_add str st)).
  { intros str Hl. apply (morse_buffer_add_in_bounds str st H Hl). }
  repeat match goal with
         | |- context [if ?c then _ else _] => destruct c
         end;
    try apply emit_buffer_ok; try apply Hadd; try exact H;
    vm_compute; discriminate.
Qed.

(** X15: whatever symbols are transmitted, in whatever number, the text
    buffer stays within bounds: [morse_pos] remains the text length and
    below 127. *)
Theorem any_pattern_keeps_buffer_in_bounds (pattern : list MorseSymbol) :
  forall st : State,
    buffer_ok st ->
    buffer_ok (fold_left (fun acc sym => transmit_symbol sym acc) pattern st).
Proof.
  induction pattern as [|sym pattern IH]; intros st H; cbn [fold_left]; [exact H|].
  apply IH, transmit_symbol_buffer_ok, H.
Qed.

Lemma any_pattern_witness :
  buffer_ok (fold_left (fun acc sym => transmit_symbol sym acc) (repeat DOT 200) start).
Proof.
  apply (any_pattern_keeps_buffer_in_bounds (repeat DOT 200) start).
  split; reflexivity.
Defined.

(** X16: [transmit_symbol] has no [default] label: every value that is
    none of the five enumerators is ignored, with no signal change, no
    delay and no text. *)
Theorem transmit_symbol_ignores_unknown (symbol : MorseSymbol) (st : State) :
  ~ (DOT <= symbol <= SPACE_WORD) -> transmit_symbol symbol st = st.
Proof.
  unfold transmit_symbol, DOT, DASH, SPACE_SYMBOL, SPACE_LETTER, SPACE_WORD.
  intros H.
  destruct (Z.eqb_spec symbol 0); [lia|].
  destruct (Z.eqb_spec symbol 1); [lia|].
  destruct (Z.eqb_spec symbol 2); [lia|].
  destruct (Z.eqb_spec symbol 3); [lia|].
  destruct (Z.eqb_spec symbol 4); [lia|].
  reflexivity.
Qed.

Lemma transmit_symbol_ignores_witness :
  transmit_symbol LETTER_SPACE start = start.
Proof.
  apply (transmit_symbol_ignores_unknown LETTER_SPACE start).
  vm_compute. intros [_ H]. apply H. reflexivity.
Defined.

(** X17: every SOS cycle is the same, whatever was in the buffer before:
    [transmit_sos] clears the text first, so it always logs "... --- ...",
    appends the same calls to the trace, and asks for 5600 ms of delay in
    total, 2600 ms of it with the signal off. *)
Theorem transmit_sos_is_repeatable (st : State) :
  morse_buffer (transmit_sos st) = "... --- ..."%string /\
  morse_pos (transmit_sos st) = 11 /\
  trace (transmit_sos st) =
    (trace st ++ sos_cycle_calls ++ [LogTransmitted "... --- ..."%string])%list /\
  total_delay sos_cycle_calls = 5600 /\
  off_time 0 sos_cycle_calls = 2600.
Proof.
  unfold transmit_sos, morse_buffer_clear.
  rewrite (pattern_frame sos_pattern EmptyString 0 (trace st)). cbv zeta.
  change (fold_left (fun acc sym => transmit_symbol sym acc) sos_pattern
            {| morse_buffer := EmptyString; morse_pos := 0; trace := [] |})
    with (fold_left (fun acc sym => transmit_symbol sym acc) sos_pattern start).
  fold sos_cycle_calls.
  unfold emit. cbn [morse_buffer morse_pos trace].
  rewrite <- app_assoc.
  repeat split; reflexivity.
Qed.

End MorseProofs.

Module CountdownProofs.
Import CInt Countdown.

Lemma counts_shown_app a b : counts_shown (a ++ b) = counts_shown a ++ counts_shown b.
Proof.
  induction a as [|e a IH]; [reflexivity|].
  destruct e as [| | | | |[]]; cbn; rewrite ?IH; reflexivity.
Qed.

Lemma total_delay_app a b : total_delay (a ++ b) = total_delay a + total_delay b.
Proof.
  induction a as [|e a IH]; [reflexivity|].
  destruct e; cbn [app total_delay]; rewrite ?IH; lia.
Qed.

Lemma high_writes_app a b : high_writes (a ++ b) = high_writes a + high_writes b.
Proof.
  induction a as [|e a IH]; [reflexivity|].
  destruct e; cbn [app high_writes]; rewrite ?IH; lia.
Qed.

Lemma turn_on_from_quiet pins : forall i count,
  counts_shown (turn_on_from i pins count) = [] /\
  total_delay (turn_on_from i pins count) = 0 /\
  pins_written (turn_on_from i pins count) = pins.
Proof.
  induction pins as [|pin pins IH]; intros i count; cbn; [auto|].
  destruct (IH (i + 1) count) as (H1 & H2 & H3). rewrite H3. auto.
Qed.

(** X18: [turn_on_leds] writes each of the five pins once, in the order
    of [led_pins], and drives high as many as [count] says, clamped to
    0..5; for [count <= 0] it is [turn_off_all_leds]. *)
Theorem turn_on_leds_clamps_count (count : Z) :
  pins_written (turn_on_leds count) = led_pins /\
  high_writes (turn_on_leds count) = Z.max 0 (Z.min count NUM_LEDS) /\
  (count <= 0 -> turn_on_leds count = turn_off_all_leds) /\
  (NUM_LEDS <= count ->
   turn_on_leds count = map (fun pin => GpioSetLevel pin 1) led_pins).
Proof.
  unfold turn_on_leds, turn_off_all_leds, led_pins, NUM_LEDS.
  cbn [turn_on_from pins_written high_writes map Z.add Pos.add Pos.succ].
  destruct (Z.ltb_spec 0 count); destruct (Z.ltb_spec 1 count);
    destruct (Z.ltb_spec 2 count); destruct (Z.ltb_spec 3 count);
    destruct (Z.ltb_spec 4 count); try lia;
    cbn; repeat split; intros; try reflexivity; lia.
Qed.

(** X19: [flash_all_leds] makes no call when [times <= 0]; otherwise it
    switches all five LEDs on and off [times] times and asks for two
    delays of [interval_ms] per flash. *)
Theorem flash_all_leds_shape (times interval_ms : Z) :
  (times <= 0 -> flash_all_leds times interval_ms = []) /\
  total_delay (flash_all_leds times interval_ms) = 2 * interval_ms * Z.max 0 times /\
  high_writes (flash_all_leds times interval_ms) = NUM_LEDS * Z.max 0 times.
Proof.
  unfold flash_all_leds. split; [|].
  - intros H. destruct times; try lia; reflexivity.
  - assert (H : forall n, total_delay (flash_loop n interval_ms)
                          = 2 * interval_ms * Z.of_nat n /\
                          high_writes (flash_loop n interval_ms) = NUM_LEDS * Z.of_nat n).
    { induction n as [|n [IH1 IH2]]; [split; cbn; lia|].
      cbn [flash_loop]. rewrite !total_delay_app, !high_writes_app, IH1, IH2.
      change (total_delay (map (fun pin => GpioSetLevel pin 1) led_pins)) with 0.
      change (total_delay turn_off_all_leds) with 0.
      change (high_writes (map (fun pin => GpioSetLevel pin 1) led_pins)) with 5.
      change (high_writes turn_off_all_leds) with 0.
      change (high_writes [VTaskDelay interval_ms]) with 0.
      change (total_delay [VTaskDelay interval_ms]) with (interval_ms + 0).
      unfold NUM_LEDS. rewrite Nat2Z.inj_succ. lia. }
    destruct (H (Z.to_nat times)) as [H1 H2]. rewrite H1, H2. lia.
Qed.

Lemma int_add_in_range a b :
  INT_MIN <= a + b <= INT_MAX -> int_add a b = Some (a + b).
Proof.
  intros H. unfold int_add.
  destruct (Z.leb_spec INT_MIN (a + b)); [|lia].
  destruct (Z.leb_spec (a + b) INT_MAX); [reflexivity|lia].
Qed.

Lemma rapid_ticks_quiet n :
  counts_shown (rapid_ticks n) = [] /\
  total_delay (rapid_ticks n) = Z.of_nat n * (ACCELERATED_TICK_INTERVAL + 100).
Proof.
  induction n as [|n [IH1 IH2]]; [split; reflexivity|].
  cbn [rapid_ticks]. split.
  - change (counts_shown (tick_sound ++ rapid_ticks n) = []).
    rewrite counts_shown_app, IH1. reflexivity.
  - cbn [total_delay]. rewrite total_delay_app, IH2.
    change (total_delay tick_sound) with 100.
    unfold ACCELERATED_TICK_INTERVAL. rewrite Nat2Z.inj_succ. lia.
Qed.

Lemma countdown_loop_runs (n : nat) : forall (fuel : nat) (current_led : Z)
    (end_led direction tick_interval : Z),
  (n < fuel)%nat ->
  Z.of_nat n = Z.abs (end_led - current_led) ->
  (current_led < end_led -> direction = 1) ->
  (end_led < current_led -> direction = -1) ->
  INT_MIN <= current_led < INT_MAX ->
  INT_MIN <= end_led < INT_MAX ->
  exists events,
    countdown_loop fuel current_led end_led direction tick_interval = Finished events /\
    counts_shown events = steps_from n (current_led + 1) direction /\
    total_delay events =
      (Z.of_nat n + 1) * 100 + Z.of_nat n * tick_interval
      + (if (tick_interval =? ACCELERATED_TICK_INTERVAL) && (end_led =? 0)
         then 5 * (ACCELERATED_TICK_INTERVAL + 100) else 0).
Proof.
  induction n as [|n IH]; intros fuel cur e d tick Hfuel Hn Hup Hdown Hc He;
    (destruct fuel as [|fuel]; [lia|]); cbn [countdown_loop];
    rewrite (int_add_in_range cur 1) by lia.
  - assert (cur = e) by lia. subst e. rewrite Z.eqb_refl.
    eexists. split; [reflexivity|].
    rewrite !counts_shown_app, !total_delay_app.
    destruct (turn_on_from_quiet led_pins 0 (cur + 1)) as (Q1 & Q2 & _).
    unfold turn_on_leds. rewrite Q1, Q2.
    destruct ((tick =? ACCELERATED_TICK_INTERVAL) && (cur =? 0)).
    + destruct (rapid_ticks_quiet 5) as [R1 R2]. rewrite R1, R2.
      change (total_delay tick_sound) with 100.
      change (counts_shown tick_sound) with (@nil Z).
      cbn [counts_shown total_delay steps_from app].
      unfold ACCELERATED_TICK_INTERVAL. split; [reflexivity|lia].
    + change (total_delay tick_sound) with 100.
      change (counts_shown tick_sound) with (@nil Z).
      cbn [counts_shown total_delay steps_from app]. split; [reflexivity|lia].
  - destruct (Z.eqb_spec cur e) as [E|E]; [lia|].
    assert (Hd : d = 1 \/ d = -1) by lia.
    rewrite (int_add_in_range cur d) by lia.
    destruct (IH fuel (cur + d) e d tick) as (rest & Hrun & Hcounts & Hdelay); try lia.
    rewrite Hrun. eexists. split; [reflexivity|].
    rewrite !counts_shown_app, !total_delay_app, Hcounts, Hdelay.
    destruct (turn_on_from_quiet led_pins 0 (cur + 1)) as (Q1 & Q2 & _).
    unfold turn_on_leds. rewrite Q1, Q2.
    cbn [steps_from]. replace (cur + d + 1) with (cur + 1 + d) by lia.
    change (total_delay tick_sound) with 100.
    change (counts_shown tick_sound) with (@nil Z).
    cbn [counts_shown total_delay app].
    split; [reflexivity|]. rewrite Nat2Z.inj_succ. lia.
Qed.

(** X20: [countdown_phase] terminates for any pair of LED indices: with
    more fuel than their distance it finishes, having announced the counts
    [start_led + 1], ..., [end_led + 1] one step at a time (down when the
    start is above the end, up otherwise) with one tick per count, and a
    delay of [tick_interval] between counts (plus five rapid ticks at the
    end of the accelerated phase). *)
Theorem countdown_phase_terminates (fuel : nat) (start_led end_led tick_interval : Z) :
  INT_MIN <= start_led < INT_MAX ->
  INT_MIN <= end_led < INT_MAX ->
  Z.abs (end_led - start_led) < Z.of_nat fuel ->
  let n := Z.to_nat (Z.abs (end_led - start_led)) in
  exists events,
    countdown_phase fuel start_led end_led tick_interval = Finished events /\
    counts_shown events =
      steps_from n (start_led + 1) (if end_led <? start_led then -1 else 1) /\
    last (counts_shown events) 0 = end_led + 1 /\
    total_delay events =
      (Z.of_nat n + 1) * 100 + Z.of_nat n * tick_interval
      + (if (tick_interval =? ACCELERATED_TICK_INTERVAL) && (end_led =? 0)
         then 5 * (ACCELERATED_TICK_INTERVAL + 100) else 0).
Proof.
  intros Hs He Hfuel n. unfold countdown_phase.
  destruct (countdown_loop_runs n fuel start_led end_led
              (if end_led <? start_led then -1 else 1) tick_interval)
    as (events & Hrun & Hcounts & Hdelay); try assumption; try (subst n; lia).
  - intros H. destruct (Z.ltb_spec end_led start_led); [lia|reflexivity].
  - intros H. destruct (Z.ltb_spec end_led start_led); [reflexivity|lia].
  - exists events. split; [exact Hrun|]. split; [exact Hcounts|]. split; [|exact Hdelay].
    rewrite Hcounts.
    assert (Hlast : forall k x d, last (steps_from k x d) 0 = x + Z.of_nat k * d).
    { induction k as [|k IHk]; intros x d; [cbn; lia|].
      change (steps_from (S k) x d) with (x :: steps_from k (x + d) d).
      assert (Hne : steps_from k (x + d) d <> []) by (destruct k; discriminate).
      destruct (steps_from k (x + d) d) as [|y l] eqn:El; [congruence|].
      change (last (x :: y :: l) 0) with (last (y :: l) 0).
      rewrite <- El, IHk. lia. }
    rewrite Hlast. subst n.
    destruct (Z.ltb_spec end_led start_led); lia.
Qed.

Lemma countdown_phase_witness :
  exists events,
    countdown_phase 4 4 1 1000 = Finished events /\
    counts_shown events = [5; 4; 3; 2] /\
    last (counts_shown events) 0 = 2 /\
    total_delay events = 3400.
Proof.
  refine (countdown_phase_terminates 4 4 1 1000 _ _ _).
  - vm_compute. split; [discriminate|reflexivity].
  - vm_compute. split; [discriminate|reflexivity].
  - reflexivity.
Defined.

(** X21: one pass of the main loop terminates: with fuel 4 or more it
    finishes, announces the counts 5, 4, 3, 2, 1 in this order, and asks for
    12 seconds of delay in all. *)
Theorem app_main_cycle_terminates (fuel : nat) :
  (4 <= fuel)%nat ->
  exists events,
    app_main_cycle fuel = Finished events /\
    counts_shown events = [5; 4; 3; 2; 1] /\
    total_delay events = 12000.
Proof.
  intros Hfuel. unfold app_main_cycle, countdown_phase.
  assert (Hrange : forall z, z = 0 \/ z = 1 \/ z = 4 -> INT_MIN <= z < INT_MAX).
  { unfold INT_MIN, INT_MAX. lia. }
  destruct (countdown_loop_runs 3 fuel (NUM_LEDS - 1) 1 (-1) INITIAL_TICK_INTERVAL)
    as (normal & Hn & Hnc & Hnd).
  { lia. } { reflexivity. } { unfold NUM_LEDS. lia. } { reflexivity. }
  { apply Hrange. unfold NUM_LEDS. lia. } { apply Hrange. lia. }
  destruct (countdown_loop_runs 0 fuel 0 0 1 ACCELERATED_TICK_INTERVAL)
    as (accel & Ha & Hac & Had).
  { lia. } { reflexivity. } { reflexivity. } { lia. }
  { apply Hrange. lia. } { apply Hrange. lia. }
  change (if 1 <? NUM_LEDS - 1 then -1 else 1) with (-1).
  change (if 0 <? 0 then -1 else 1) with 1.
  rewrite Hn, Ha. eexists. split; [reflexivity|].
  rewrite !counts_shown_app, !total_delay_app, Hnc, Hac, Hnd, Had.
  split; reflexivity.
Qed.

Lemma app_main_cycle_witness :
  exists events,
    app_main_cycle 4 = Finished events /\
    counts_shown events = [5; 4; 3; 2; 1] /\
    total_delay events = 12000.
Proof.
  apply (app_main_cycle_terminates 4). apply le_n.
Defined.

End CountdownProofs.

Module TrafficLightProofs.
Import CInt TrafficLight.

Lemma transitions_app a b : transitions (a ++ b) = (transitions a + transitions b)%nat.
Proof. unfold transitions. rewrite filter_app, length_app. reflexivity. Qed.

Lemma valid_state_cases s : valid_state s -> s = 0 \/ s = 1 \/ s = 2 \/ s = 3.
Proof. unfold valid_state, STATE_MAX. lia. Qed.

Lemma poll_expired w :
valid_state (current_state (traffic_context w)) ->
state_duration (current_state (traffic_context w)) <= elapsed_at w 0 ->
exists w', state_machine_run w = Done tt w' /\
  traffic_context w' =
    {| current_state := next_state (current_state (traffic_context w));
       state_start_time := millis_at w (S (timer_reads w));
       last_beep_time := 0; beep_active := false |} /\
  esp_timer w' = esp_timer w /\
  timer_reads w' = S (S (timer_reads w)) /\
  transitions (trace w') = S (transitions (trace w)).
Proof.
intros Hv He. open_world w.
destruct (valid_state_cases _ Hv) as [-> | [-> | [-> | ->]]];
  cbv [nth Z.to_nat Pos.to_nat Pos.iter_op Init.Nat.add state_durations] in He; apply Z.leb_le in He; unfold_handlers; run_code;
  repeat (first [rewrite He; run_code | branch]);
  (eexists; split; [reflexivity|]); run_code;
  rewrite !transitions_app; cbn; repeat split; lia.
Qed.

Lemma poll_waiting w :
valid_state (current_state (traffic_context w)) ->
elapsed_at w 0 < state_duration (current_state (traffic_context w)) ->
exists w', state_machine_run w = Done tt w' /\
  current_state (traffic_context w') = current_state (traffic_context w) /\
  state_start_time (traffic_context w') = state_start_time (traffic_context w) /\
  esp_timer w' = esp_timer w /\
  timer_reads w' = S (timer_reads w) /\
  transitions (trace w') = transitions (trace w).
Proof.
intros Hv He. open_world w.
destruct (valid_state_cases _ Hv) as [-> | [-> | [-> | ->]]];
  cbv [nth Z.to_nat Pos.to_nat Pos.iter_op Init.Nat.add state_durations] in He; apply Z.leb_gt in He; unfold_handlers; run_code;
  repeat (first [rewrite He; run_code | branch]);
  (eexists; split; [reflexivity|]); run_code;
  rewrite ?transitions_app; cbn; repeat split; lia.
Qed.

(** Outside GREEN a poll before expiry only reads the clock. *)
Lemma poll_idle w :
valid_state (current_state (traffic_context w)) ->
current_state (traffic_context w) <> STATE_GREEN ->
elapsed_at w 0 < state_duration (current_state (traffic_context w)) ->
state_machine_run w = Done tt (after_clock_read w).
Proof.
intros Hv Hg He. open_world w.
destruct (valid_state_cases _ Hv) as [-> | [-> | [-> | ->]]];
  try (exfalso; apply Hg; reflexivity);
  cbv [nth Z.to_nat Pos.to_nat Pos.iter_op Init.Nat.add state_durations] in He; apply Z.leb_gt in He; unfold_handlers; run_code;
  rewrite He; reflexivity.
Qed.

Lemma poll_fault w :
~ valid_state (current_state (traffic_context w)) ->
state_machine_run w =
OutOfBounds (after_call (EspLog LogError (UnknownState (current_state (traffic_context w)))) w).
Proof.
intros Hv. open_world w. unfold valid_state, STATE_MAX in Hv.
unfold_handlers.
cbn -[sub32 to_uint32 to_uint64 Z.div transitions beep_starts index].
destruct (Z.eqb_spec s 0); [lia|].
destruct (Z.eqb_spec s 1); [lia|].
destruct (Z.eqb_spec s 2); [lia|].
destruct (Z.eqb_spec s 3); [lia|].
cbn -[index]. unfold index.
destruct (Z.ltb_spec s 0); [reflexivity|].
assert (E : nth_error state_names (Z.to_nat s) = None).
{ apply nth_error_None. cbn. lia. }
rewrite E. reflexivity.
Qed.

Lemma sub32_range a b : 0 <= sub32 a b < UINT32_MOD.
Proof. unfold sub32. apply Z.mod_pos_bound. reflexivity. Qed.

Lemma sub32_triangle a b c : sub32 c a <= sub32 b a + sub32 c b.
Proof.
unfold sub32.
replace (c - a) with ((b - a) + (c - b)) by lia.
rewrite Z.add_mod by (unfold UINT32_MOD; lia).
apply Z.mod_le.
- pose proof (Z.mod_pos_bound (b - a) UINT32_MOD eq_refl).
  pose proof (Z.mod_pos_bound (c - b) UINT32_MOD eq_refl). lia.
- reflexivity.
Qed.

Lemma sub32_exact t e :
0 <= e < UINT32_MOD -> sub32 (to_uint32 (t + e)) (to_uint32 t) = e.
Proof.
intros He. unfold sub32, to_uint32.
rewrite <- Zminus_mod.
replace (t + e - t) with e by lia.
apply Z.mod_small, He.
Qed.

Lemma loop_iteration_after w w1 :
state_machine_run w = Done tt w1 ->
loop_iteration w = Done tt (after_call (VTaskDelay 10) w1).
Proof. intros H. unfold loop_iteration, bind. rewrite H. reflexivity. Qed.

Lemma valid_next_state s : valid_state s -> valid_state (next_state s).
Proof.
unfold valid_state, next_state, STATE_MAX. intros _.
apply Z.mod_pos_bound. lia.
Qed.

Lemma state_duration_positive s : valid_state s -> 0 < state_duration s.
Proof.
intros H. destruct (valid_state_cases _ H) as [-> | [-> | [-> | ->]]]; reflexivity.
Qed.

(** While the state has not expired the loop keeps polling in it. *)
Lemma loop_waits n : forall w,
valid_state (current_state (traffic_context w)) ->
(forall k, (k < n)%nat ->
   elapsed_at w k < state_duration (current_state (traffic_context w))) ->
exists w', app_main_loop n w = Done tt w' /\
  current_state (traffic_context w') = current_state (traffic_context w) /\
  state_start_time (traffic_context w') = state_start_time (traffic_context w) /\
  esp_timer w' = esp_timer w /\
  timer_reads w' = (n + timer_reads w)%nat /\
  transitions (trace w') = transitions (trace w).
Proof.
induction n as [|n IH]; intros w Hv Hw.
- exists w. cbn. repeat split; reflexivity.
- destruct (poll_waiting w Hv (Hw 0%nat ltac:(lia))) as (w1 & Hrun & Hs & Hst & Ht & Hr & Htr).
  pose proof (loop_iteration_after _ _ Hrun) as Hit.
  set (w2 := after_call (VTaskDelay 10) w1) in *.
  assert (Hs2 : current_state (traffic_context w2) = current_state (traffic_context w)) by exact Hs.
  assert (Hst2 : state_start_time (traffic_context w2) = state_start_time (traffic_context w)) by exact Hst.
  assert (Ht2 : esp_timer w2 = esp_timer w) by exact Ht.
  assert (Hr2 : timer_reads w2 = S (timer_reads w)) by exact Hr.
  assert (Htr2 : transitions (trace w2) = transitions (trace w)).
  { unfold w2, after_call. cbn [trace]. rewrite transitions_app, Htr. cbn. lia. }
  destruct (IH w2) as (w' & Hloop & Hs' & Hst' & Ht' & Hr' & Htr').
  + rewrite Hs2. exact Hv.
  + intros k Hk. rewrite Hs2.
    specialize (Hw (S k) ltac:(lia)).
    unfold elapsed_at, millis_at in *. rewrite Ht2, Hr2, Hst2.
    replace (k + S (timer_reads w))%nat with (S k + timer_reads w)%nat by lia.
    exact Hw.
  + exists w'. split.
    { cbn [app_main_loop]. unfold bind at 1. rewrite Hit. exact Hloop. }
    repeat split; try congruence. rewrite Hr', Hr2. lia.
Qed.

(** The first poll at or after expiry leaves the state. *)
Lemma loop_expires n : forall w,
valid_state (current_state (traffic_context w)) ->
(forall k, (k < n)%nat ->
   elapsed_at w k < state_duration (current_state (traffic_context w))) ->
state_duration (current_state (traffic_context w)) <= elapsed_at w n ->
exists w', app_main_loop (S n) w = Done tt w' /\
  traffic_context w' =
    {| current_state := next_state (current_state (traffic_context w));
       state_start_time := millis_at w (S n + timer_reads w);
       last_beep_time := 0; beep_active := false |} /\
  esp_timer w' = esp_timer w /\
  timer_reads w' = (S (S n) + timer_reads w)%nat /\
  transitions (trace w') = S (transitions (trace w)).
Proof.
induction n as [|n IH]; intros w Hv Hw He.
- destruct (poll_expired w Hv He) as (w1 & Hrun & Hc & Ht & Hr & Htr).
  pose proof (loop_iteration_after _ _ Hrun) as Hit.
  exists (after_call (VTaskDelay 10) w1). split.
  { cbn [app_main_loop]. unfold bind at 1. rewrite Hit. reflexivity. }
  unfold after_call; cbn [traffic_context esp_timer timer_reads trace].
  rewrite transitions_app, Htr. cbn. repeat split; auto; lia.
- destruct (poll_waiting w Hv (Hw 0%nat ltac:(lia))) as (w1 & Hrun & Hs & Hst & Ht & Hr & Htr).
  pose proof (loop_iteration_after _ _ Hrun) as Hit.
  set (w2 := after_call (VTaskDelay 10) w1) in *.
  assert (Hs2 : current_state (traffic_context w2) = current_state (traffic_context w)) by exact Hs.
  assert (Hst2 : state_start_time (traffic_context w2) = state_start_time (traffic_context w)) by exact Hst.
  assert (Ht2 : esp_timer w2 = esp_timer w) by exact Ht.
  assert (Hr2 : timer_reads w2 = S (timer_reads w)) by exact Hr.
  assert (Htr2 : transitions (trace w2) = transitions (trace w)).
  { unfold w2, after_call. cbn [trace]. rewrite transitions_app, Htr. cbn. lia. }
  assert (Hshift : forall k, elapsed_at w2 k = elapsed_at w (S k)).
  { intros k. unfold elapsed_at, millis_at. rewrite Ht2, Hr2, Hst2.
    replace (k + S (timer_reads w))%nat with (S k + timer_reads w)%nat by lia.
    reflexivity. }
  destruct (IH w2) as (w' & Hloop & Hc' & Ht' & Hr' & Htr').
  + rewrite Hs2. exact Hv.
  + intros k Hk. rewrite Hs2, Hshift. apply Hw. lia.
  + rewrite Hs2, Hshift. exact He.
  + exists w'. split.
    { change (app_main_loop (S (S n)) w)
        with (bind loop_iteration (fun _ => app_main_loop (S n)) w).
      unfold bind at 1. rewrite Hit. exact Hloop. }
    rewrite Hc', Hs2, Hr', Hr2, Htr', Htr2, Ht', Ht2.
    unfold millis_at. rewrite Ht2.
    replace (S n + S (timer_reads w))%nat with (S (S n) + timer_reads w)%nat by lia.
    repeat split; lia.
Qed.

Lemma elapsed_step w k : elapsed_at w (S k) <= elapsed_at w k + poll_gap w (S k).
Proof. unfold elapsed_at, poll_gap. apply sub32_triangle. Qed.

Lemma setup_result b timer :
  exists tr,
    app_main_setup (power_on b timer) =
    Done tt
      {| traffic_context :=
           {| current_state := STATE_RED;
              state_start_time := to_uint32 (to_uint64 (timer 0%nat) / 1000);
              last_beep_time := 0; beep_active := false |};
         board := board_at_reset;
         trace := tr;
         esp_timer := timer;
         timer_reads := 1 |} /\
    ~ In (GpioSetLevel RED_LED_PIN 1) tr.
Proof.
  unfold app_main_setup, init_traffic_leds, init_buzzer, power_on.
  run_code. eexists. split; [reflexivity|].
  cbn. unfold RED_LED_PIN. intros H.
  repeat (destruct H as [H|H]; [discriminate H|]). exact H.
Qed.

Lemma loop_iteration_inv w w' :
  valid_state (current_state (traffic_context w)) ->
  loop_iteration w = Done tt w' ->
  valid_state (current_state (traffic_context w')).
Proof.
  intros Hv Hit.
  destruct (Z_lt_le_dec (elapsed_at w 0) (state_duration (current_state (traffic_context w))))
    as [Hlt|Hge].
  - destruct (poll_waiting w Hv Hlt) as (w1 & Hrun & Hs & _).
    rewrite (loop_iteration_after _ _ Hrun) in Hit. injection Hit as <-.
    cbn [after_call traffic_context]. rewrite Hs. exact Hv.
  - destruct (poll_expired w Hv Hge) as (w1 & Hrun & Hc & _).
    rewrite (loop_iteration_after _ _ Hrun) in Hit. injection Hit as <-.
    cbn [after_call traffic_context]. rewrite Hc. cbn [current_state].
    apply valid_next_state, Hv.
Qed.

(** Every world at the top of the loop is in one of the four states. *)
Lemma reachable_valid w : reachable w -> valid_state (current_state (traffic_context w)).
Proof.
  induction 1 as [b timer w Hsetup | w w' _ IH Hit].
  - destruct (setup_result b timer) as (tr & E & _).
    rewrite E in Hsetup. injection Hsetup as <-.
    cbn. unfold valid_state, STATE_RED, STATE_MAX. lia.
  - eapply loop_iteration_inv; eauto.
Qed.

(** The loop only passes through reachable worlds. *)
Lemma reachable_after_loop n : forall w,
  reachable w ->
  app_main_loop n w = Done tt (final (app_main_loop n w)) ->
  reachable (final (app_main_loop n w)).
Proof.
  induction n as [|n IH]; intros w Hr Hdone; [exact Hr|].
  change (app_main_loop (S n) w) with (bind loop_iteration (fun _ => app_main_loop n) w) in *.
  unfold bind in *.
  destruct (loop_iteration w) as [[] w1|w1] eqn:Hit; [|discriminate Hdone].
  apply IH; [|exact Hdone].
  eapply reach_loop; [exact Hr|exact Hit].
Qed.

(** C1: the durations are 5000, 2000, 5000, 2000 ms in enum order; the
    successor [(s + 1) mod 4] is RED -> RED_TO_YELLOW -> GREEN ->
    GREEN_TO_YELLOW -> RED; and in every world the program reaches, the
    state is one of the four and the state entered at expiry is exactly that
    successor (before expiry the state is kept). *)
Theorem cycle_successor_at_expiry (w : World) :
  reachable w ->
  let s := current_state (traffic_context w) in
  (state_duration STATE_RED = 5000 /\ state_duration STATE_RED_TO_YELLOW = 2000 /\
   state_duration STATE_GREEN = 5000 /\ state_duration STATE_GREEN_TO_YELLOW = 2000) /\
  (next_state STATE_RED = STATE_RED_TO_YELLOW /\
   next_state STATE_RED_TO_YELLOW = STATE_GREEN /\
   next_state STATE_GREEN = STATE_GREEN_TO_YELLOW /\
   next_state STATE_GREEN_TO_YELLOW = STATE_RED) /\
  valid_state s /\
  (state_duration s <= elapsed_at w 0 ->
   exists w', state_machine_run w = Done tt w' /\
              current_state (traffic_context w') = next_state s) /\
  (elapsed_at w 0 < state_duration s ->
   exists w', state_machine_run w = Done tt w' /\
              current_state (traffic_context w') = s).
Proof.
  intros Hr s.
  pose proof (reachable_valid w Hr) as Hv.
  split; [repeat split|]. split; [repeat split|]. split; [exact Hv|]. split.
  - intros He. destruct (poll_expired w Hv He) as (w' & Hrun & Hc & _).
    exists w'. split; [exact Hrun|]. rewrite Hc. reflexivity.
  - intros He. destruct (poll_waiting w Hv He) as (w' & Hrun & Hs & _).
    exists w'. split; [exact Hrun|exact Hs].
Qed.

Lemma cycle_successor_witness :
  let w := final (app_main_loop 499
                    (final (app_main_setup (power_on board_at_reset (clock_from 0 10))))) in
  reachable w /\
  current_state (traffic_context w) = STATE_RED /\
  elapsed_at w 0 = 5000 /\
  exists w', state_machine_run w = Done tt w' /\
             current_state (traffic_context w') = STATE_RED_TO_YELLOW.
Proof.
  assert (Hr : reachable
                 (final (app_main_loop 499
                           (final (app_main_setup
                                     (power_on board_at_reset (clock_from 0 10))))))).
  { apply (reachable_after_loop 499
             (final (app_main_setup (power_on board_at_reset (clock_from 0 10))))).
    - apply (reach_setup board_at_reset (clock_from 0 10)). vm_compute. reflexivity.
    - vm_compute. reflexivity. }
  split; [exact Hr|].
  split; [vm_compute; reflexivity|].
  split; [vm_compute; reflexivity|].
  destruct (proj1 (proj2 (proj2 (proj2
              (cycle_successor_at_expiry
                 (final (app_main_loop 499
                           (final (app_main_setup
                                     (power_on board_at_reset (clock_from 0 10))))))
                 Hr))))) as (w' & Hrun & Hnext).
  - vm_compute. discriminate.
  - exists w'. split; [exact Hrun|].
    rewrite Hnext. vm_compute. reflexivity.
Defined.

(** C2: in a visit of a state with duration [d], the polls whose elapsed
    time (clock reading minus entry timestamp) is below [d] keep the state
    and its entry timestamp, and the first poll with elapsed time at least
    [d] leaves it; when that poll comes at most [p] after the one before it
    (or after the entry), the elapsed time at the transition lies in
    [[d, d + p)].  The transition stores the clock reading it takes as the
    entry timestamp of the next state, so the next visit is timed from its
    own entry. *)
Theorem transition_within_polling_window (w : World) (p : Z) (n : nat) :
  let s := current_state (traffic_context w) in
  let d := state_duration s in
  valid_state s ->
  (forall k, (k < n)%nat -> elapsed_at w k < d) ->
  d <= elapsed_at w n ->
  poll_gap w n <= p ->
  (forall k, (k <= n)%nat ->
     exists w', app_main_loop k w = Done tt w' /\
                current_state (traffic_context w') = s /\
                state_start_time (traffic_context w') = state_start_time (traffic_context w) /\
                transitions (trace w') = transitions (trace w)) /\
  (exists w', app_main_loop (S n) w = Done tt w' /\
              traffic_context w' =
                {| current_state := next_state s;
                   state_start_time := millis_at w (S n + timer_reads w);
                   last_beep_time := 0; beep_active := false |} /\
              esp_timer w' = esp_timer w /\
              timer_reads w' = (S (S n) + timer_reads w)%nat /\
              transitions (trace w') = S (transitions (trace w)) /\
              (forall k, elapsed_at w' k =
                         sub32 (millis_at w (k + S (S n) + timer_reads w))
                               (millis_at w (S n + timer_reads w)))) /\
  d <= elapsed_at w n < d + p.
Proof.
  intros s d Hv Hbefore Hat Hgap. split; [|split].
  - intros k Hk.
    destruct (loop_waits k w Hv) as (w' & Hloop & Hs & Hst & _ & _ & Htr).
    { intros j Hj. apply Hbefore. lia. }
    exists w'. auto.
  - destruct (loop_expires n w Hv Hbefore Hat) as (w' & Hloop & Hc & Ht & Hr & Htr).
    exists w'. split; [exact Hloop|]. split; [exact Hc|]. split; [exact Ht|].
    split; [exact Hr|]. split; [exact Htr|].
    intros k. unfold elapsed_at, millis_at. rewrite Hc, Ht, Hr.
    cbn [state_start_time]. rewrite Nat.add_assoc. reflexivity.
  - split; [exact Hat|].
    destruct n as [|n].
    + cbn [poll_gap] in Hgap. pose proof (state_duration_positive s Hv). fold d in H. lia.
    + pose proof (elapsed_step w n). specialize (Hbefore n ltac:(lia)). lia.
Qed.

Lemma transition_within_polling_window_witness :
  let w := world_in STATE_RED 0 0 false (clock_from 4990 10) in
  (exists w', app_main_loop 2 w = Done tt w' /\
              traffic_context w' =
                {| current_state := STATE_RED_TO_YELLOW; state_start_time := 5010;
                   last_beep_time := 0; beep_active := false |} /\
              esp_timer w' = esp_timer w /\
              timer_reads w' = 3%nat /\
              transitions (trace w') = 1%nat /\
              (forall k, elapsed_at w' k =
                         sub32 (millis_at w (k + 3 + 0)) 5010)) /\
  5000 <= elapsed_at w 1 < 5000 + 10.
Proof.
  refine (proj2
    (transition_within_polling_window
       (world_in STATE_RED 0 0 false (clock_from 4990 10)) 10 1 _ _ _ _)).
  - vm_compute. split; [discriminate|reflexivity].
  - intros k Hk. destruct k as [|k]; [reflexivity|lia].
  - vm_compute. discriminate.
  - vm_compute. discriminate.
Defined.

(** C6: one call of [state_machine_run] records at most one transition and
    leaves the state either unchanged or one step further in the cycle,
    whatever the elapsed time; in the four states it always completes. *)
Theorem one_transition_per_poll (w : World) :
  let s := current_state (traffic_context w) in
  let w' := final (state_machine_run w) in
  (transitions (trace w') <= transitions (trace w) + 1)%nat /\
  (current_state (traffic_context w') = s \/
   current_state (traffic_context w') = next_state s) /\
  (valid_state s -> finished (state_machine_run w) = true).
Proof.
  intros s w'. subst w'.
  destruct (Z_lt_le_dec s 0) as [Hneg|Hpos];
    [|destruct (Z_lt_le_dec s STATE_MAX) as [Hin|Hout]].
  - rewrite poll_fault by (unfold valid_state; fold s; lia).
    cbn [final after_call trace traffic_context finished].
    rewrite transitions_app. cbn. repeat split; auto; try lia.
    unfold valid_state. fold s. lia.
  - assert (Hv : valid_state s) by (unfold valid_state; lia).
    destruct (Z_lt_le_dec (elapsed_at w 0) (state_duration s)) as [Hlt|Hge].
    + destruct (poll_waiting w Hv Hlt) as (w1 & Hrun & Hs & _ & _ & _ & Htr).
      rewrite Hrun. cbn [final finished]. rewrite Htr. repeat split; auto. lia.
    + destruct (poll_expired w Hv Hge) as (w1 & Hrun & Hc & _ & _ & Htr).
      rewrite Hrun. cbn [final finished]. rewrite Htr, Hc. cbn [current_state].
      repeat split; auto. lia.
  - rewrite poll_fault by (unfold valid_state; fold s; lia).
    cbn [final after_call trace traffic_context finished].
    rewrite transitions_app. cbn. repeat split; auto; try lia.
    unfold valid_state. fold s. lia.
Qed.

Lemma millis_of_timer u : 0 <= u < 2 ^ 63 -> to_uint64 u / 1000 = u / 1000.
Proof.
  intros H. unfold to_uint64, UINT64_MOD. rewrite Z.mod_small; [reflexivity|lia].
Qed.

(** C7: when the state was entered at timer value [u0] and is polled at
    timer value [u1], with fewer than 2^32 ms between them, the handler's
    [now - start] on [uint32_t] is the true number of milliseconds elapsed,
    also when the 32-bit millisecond counter wrapped in between; so the
    state is left exactly when that time has reached the duration. *)
Theorem elapsed_time_wraparound_safe (w : World) (u0 : Z) :
  let s := current_state (traffic_context w) in
  let u1 := esp_timer w (timer_reads w) in
  let e := u1 / 1000 - u0 / 1000 in
  valid_state s ->
  0 <= u0 <= u1 ->
  u1 < 2 ^ 63 ->
  state_start_time (traffic_context w) = to_uint32 (to_uint64 u0 / 1000) ->
  e < 2 ^ 32 ->
  elapsed_at w 0 = e /\
  exists w', state_machine_run w = Done tt w' /\
    (state_duration s <= e -> current_state (traffic_context w') = next_state s) /\
    (e < state_duration s -> current_state (traffic_context w') = s).
Proof.
  intros s u1 e Hv Hu Hu1 Hstart He.
  assert (Hel : elapsed_at w 0 = e).
  { unfold elapsed_at, millis_at. cbn [Nat.add]. fold u1. rewrite Hstart.
    rewrite !millis_of_timer by lia.
    replace (u1 / 1000) with (u0 / 1000 + e) by (unfold e; lia).
    apply sub32_exact. split; [|exact He].
    unfold e. pose proof (Z.div_le_mono u0 u1 1000 ltac:(lia) ltac:(lia)). lia. }
  split; [exact Hel|].
  destruct (Z_lt_le_dec (elapsed_at w 0) (state_duration s)) as [Hlt|Hge].
  - destruct (poll_waiting w Hv Hlt) as (w1 & Hrun & Hs & _).
    exists w1. split; [exact Hrun|]. split; [lia|auto].
  - destruct (poll_expired w Hv Hge) as (w1 & Hrun & Hc & _).
    exists w1. split; [exact Hrun|]. rewrite Hc. split; [auto|lia].
Qed.

Lemma elapsed_time_wraparound_witness :
  let w := world_in STATE_RED (2 ^ 32 - 1000) 0 false (clock_from (2 ^ 32 + 4000) 10) in
  millis_at w 0 = 4000 /\ elapsed_at w 0 = 5000.
Proof.
  split; [reflexivity|].
  refine (proj1 (elapsed_time_wraparound_safe
    (world_in STATE_RED (2 ^ 32 - 1000) 0 false (clock_from (2 ^ 32 + 4000) 10))
    ((2 ^ 32 - 1000) * 1000) _ _ _ _ _)).
  - vm_compute. split; [discriminate|reflexivity].
  - vm_compute. split; discriminate.
  - reflexivity.
  - reflexivity.
  - reflexivity.
Defined.

(** C4 (the code departs from it): [app_main] sets the state to RED and
    records the clock reading as entry timestamp, but it does not run the
    entry action: when the loop is entered the red LED is off, and no call
    has driven it high. *)
Theorem setup_leaves_red_led_off (b : Board) (timer : nat -> Z) :
  exists w, app_main_setup (power_on b timer) = Done tt w /\
    current_state (traffic_context w) = STATE_RED /\
    state_start_time (traffic_context w) = millis_at (power_on b timer) 0 /\
    timer_reads w = 1%nat /\
    red_led (board w) = 0 /\
    ~ In (GpioSetLevel RED_LED_PIN 1) (trace w).
Proof.
  destruct (setup_result b timer) as (tr & E & Hno).
  eexists. split; [exact E|]. cbn. repeat split; auto.
Qed.

(** C5 (the code departs from it): with [current_state] equal to
    [STATE_MAX] the dispatcher logs the error and then, in
    [transition_to_state], reads [state_names[4]] past the end of the
    four-entry array before anything is reset. *)
Theorem unknown_state_reads_past_state_names
    (st lb : Z) (ba : bool) (b : Board) (tr : list Event) (tm : nat -> Z) (r : nat) :
  let w := {| traffic_context := {| current_state := STATE_MAX; state_start_time := st;
                                    last_beep_time := lb; beep_active := ba |};
              board := b; trace := tr; esp_timer := tm; timer_reads := r |} in
  state_machine_run w =
  OutOfBounds (after_call (EspLog LogError (UnknownState STATE_MAX)) w).
Proof.
  intros w. apply (poll_fault w).
  unfold valid_state, w, STATE_MAX. cbn. lia.
Qed.

(** C3 (the code departs from it): a GREEN visit whose beep falls due on
    the poll that reads clock value 0.  The beep starts there and
    [last_beep_time] becomes 0, which the next poll, 10 ms later, takes for
    "no beep yet": it starts the beep again.  The buzzer stays on until the
    poll at 210 ms. *)
Theorem beep_restarts_after_clock_reading_zero :
  let w0 := world_in STATE_GREEN (2 ^ 32 - 1010) (2 ^ 32 - 1000) false
              (clock_from (2 ^ 32) 10) in
  let after n := final (app_main_loop n w0) in
  (millis_at w0 0 = 0 /\ millis_at w0 1 = 10 /\ millis_at w0 20 = 200 /\
   millis_at w0 21 = 210) /\
  (beep_starts (trace (after 1%nat)) = 1%nat /\
   last_beep_time (traffic_context (after 1%nat)) = 0 /\
   beep_active (traffic_context (after 1%nat)) = true) /\
  (beep_starts (trace (after 2%nat)) = 2%nat /\
   last_beep_time (traffic_context (after 2%nat)) = 10) /\
  beep_active (traffic_context (after 21%nat)) = true /\
  beep_active (traffic_context (after 22%nat)) = false.
Proof. vm_compute. repeat split. Qed.

(** ** Further properties of the traffic light *)

(** X1: while a state other than GREEN has not expired, the passes of the
    loop do nothing but read the clock and sleep. *)
Theorem waiting_outside_green_is_idle (n : nat) : forall w : World,
  valid_state (current_state (traffic_context w)) ->
  current_state (traffic_context w) <> STATE_GREEN ->
  (forall k, (k < n)%nat ->
     elapsed_at w k < state_duration (current_state (traffic_context w))) ->
  app_main_loop n w = Done tt (after_idle_passes n w).
Proof.
  induction n as [|n IH]; intros w Hv Hg Hw.
  - destruct w as [c b tr tm r]. unfold after_idle_passes. cbn.
    rewrite app_nil_r. reflexivity.
  - pose proof (poll_idle w Hv Hg (Hw 0%nat ltac:(lia))) as Hrun.
    pose proof (loop_iteration_after _ _ Hrun) as Hit.
    cbn [app_main_loop]. unfold bind at 1. rewrite Hit.
    rewrite IH.
    + destruct w as [c b tr tm r]. unfold after_idle_passes, after_call, after_clock_read.
      cbn [traffic_context board trace esp_timer timer_reads repeat].
      rewrite <- app_assoc. cbn [app]. f_equal. f_equal. lia.
    + exact Hv.
    + exact Hg.
    + intros k Hk. specialize (Hw (S k) ltac:(lia)).
      destruct w as [c b tr tm r].
      unfold elapsed_at, millis_at, after_call, after_clock_read in *.
      cbn [traffic_context esp_timer timer_reads] in *.
      replace (k + S r)%nat with (S k + r)%nat by lia. exact Hw.
Qed.

Lemma waiting_outside_green_witness :
  let w := world_in STATE_RED 0 0 false (clock_from 10 10) in
  app_main_loop 3 w = Done tt (after_idle_passes 3 w).
Proof.
  apply (waiting_outside_green_is_idle 3
           (world_in STATE_RED 0 0 false (clock_from 10 10))).
  - vm_compute. split; [discriminate|reflexivity].
  - discriminate.
  - intros k Hk. destruct k as [|[|[|k]]]; [reflexivity..|lia].
Defined.

Lemma poll_expired_board w :
  valid_state (current_state (traffic_context w)) ->
  state_duration (current_state (traffic_context w)) <= elapsed_at w 0 ->
  exists w', state_machine_run w = Done tt w' /\
    lights (board w') = lights_for (next_state (current_state (traffic_context w))) /\
    buzzer_duty (board w') = 0 /\
    duty_pending (board w') = 0.
Proof.
  intros Hv He. open_world w.
  destruct (valid_state_cases _ Hv) as [-> | [-> | [-> | ->]]];
    cbv [nth Z.to_nat Pos.to_nat Pos.iter_op Init.Nat.add state_durations] in He;
    apply Z.leb_le in He; unfold_handlers; run_code;
    repeat (first [rewrite He; run_code | branch]);
    (eexists; split; [reflexivity|]); run_code; repeat split.
Qed.

Lemma lights_for_valid s b :
  valid_state s -> lights b = lights_for s -> lights_on b = 1.
Proof.
  intros Hs Hb. unfold lights, lights_on in *.
  destruct (valid_state_cases _ Hs) as [-> | [-> | [-> | ->]]].
  - change (lights_for 0) with (1, 0, 0) in Hb. injection Hb as -> -> ->. reflexivity.
  - change (lights_for 1) with (0, 1, 0) in Hb. injection Hb as -> -> ->. reflexivity.
  - change (lights_for 2) with (0, 0, 1) in Hb. injection Hb as -> -> ->. reflexivity.
  - change (lights_for 3) with (0, 1, 0) in Hb. injection Hb as -> -> ->. reflexivity.
Qed.

(** X2: a transition runs the entry action of the new state: the context
    is re-initialised (fresh entry timestamp, no beep recorded), the buzzer
    is silent, and exactly the light of the new state is on. *)
Theorem transition_enters_next_state (w : World) :
  valid_state (current_state (traffic_context w)) ->
  state_duration (current_state (traffic_context w)) <= elapsed_at w 0 ->
  exists w', state_machine_run w = Done tt w' /\
    traffic_context w' =
      {| current_state := next_state (current_state (traffic_context w));
         state_start_time := millis_at w (S (timer_reads w));
         last_beep_time := 0; beep_active := false |} /\
    lights (board w') = lights_for (next_state (current_state (traffic_context w))) /\
    lights_on (board w') = 1 /\
    buzzer_duty (board w') = 0.
Proof.
  intros Hv He.
  destruct (poll_expired w Hv He) as (w1 & Hrun & Hc & _).
  destruct (poll_expired_board w Hv He) as (w2 & Hrun2 & Hl & Hd & _).
  assert (w2 = w1) by congruence. subst w2.
  exists w1. repeat split; auto.
  exact (lights_for_valid _ _ (valid_next_state _ Hv) Hl).
Qed.

Lemma transition_enters_next_state_witness :
  let w := world_in STATE_GREEN_TO_YELLOW 0 0 false (clock_from 2000 10) in
  exists w', state_machine_run w = Done tt w' /\
    traffic_context w' =
      {| current_state := STATE_RED; state_start_time := 2010;
         last_beep_time := 0; beep_active := false |} /\
    lights (board w') = (1, 0, 0) /\
    lights_on (board w') = 1 /\
    buzzer_duty (board w') = 0.
Proof.
  refine (transition_enters_next_state
            (world_in STATE_GREEN_TO_YELLOW 0 0 false (clock_from 2000 10)) _ _).
  - vm_compute. split; [discriminate|reflexivity].
  - vm_compute. discriminate.
Defined.

(** X5: whatever value it is given, [set_traffic_light] leaves the lights
    of that state and nothing else: exactly one LED for the four states,
    none for any other value. *)
Theorem set_traffic_light_one_light (state : TrafficLightState) (w : World) :
  exists w', set_traffic_light state w = Done tt w' /\
    lights (board w') = lights_for state /\
    (valid_state state -> lights_on (board w') = 1) /\
    (~ valid_state state -> lights_on (board w') = 0) /\
    traffic_context w' = traffic_context w /\
    buzzer_duty (board w') = buzzer_duty (board w).
Proof.
  destruct w as [c b tr tm r].
  unfold set_traffic_light, lights_for, valid_state,
    STATE_RED, STATE_RED_TO_YELLOW, STATE_GREEN, STATE_GREEN_TO_YELLOW, STATE_MAX.
  run_code.
  destruct (Z.eqb_spec state 0); [subst|];
    [|destruct (Z.eqb_spec state 1); [subst|];
      [|destruct (Z.eqb_spec state 3); [subst|];
        [|destruct (Z.eqb_spec state 2); [subst|]]]];
    run_code; (eexists; split; [reflexivity|]); cbn; repeat split; intros; lia.
Qed.

(** X6: for every state value outside the four states the dispatcher logs
    the unknown state and then stops at the read of [state_names] outside
    its bounds, with the context still as it was. *)
Theorem unknown_state_always_faults (w : World) :
  ~ valid_state (current_state (traffic_context w)) ->
  state_machine_run w =
  OutOfBounds
    (after_call (EspLog LogError (UnknownState (current_state (traffic_context w)))) w).
Proof. exact (poll_fault w). Qed.

Lemma unknown_state_always_faults_witness :
  let w := world_in (-1) 0 0 false (clock_from 0 10) in
  state_machine_run w = OutOfBounds (after_call (EspLog LogError (UnknownState (-1))) w).
Proof.
  apply (unknown_state_always_faults (world_in (-1) 0 0 false (clock_from 0 10))).
  vm_compute. intros [H _]. apply H. reflexivity.
Defined.

Lemma sub32_diag a : sub32 a a = 0.
Proof. unfold sub32. rewrite Z.sub_diag. reflexivity. Qed.

Lemma beep_starts_app a b : beep_starts (a ++ b) = (beep_starts a + beep_starts b)%nat.
Proof. unfold beep_starts. rewrite filter_app, length_app. reflexivity. Qed.

(** X4: the beep rule of the GREEN handler, for a poll before expiry that
    reads [now].  A beep is started exactly when none was recorded in this
    visit ([last_beep_time = 0]) or at least [BEEP_INTERVAL] has passed
    since the last start; a beep that is running and not restarted is
    stopped once [BEEP_DURATION] has passed since its start. *)
Theorem green_beep_rule (w : World) :
  current_state (traffic_context w) = STATE_GREEN ->
  elapsed_at w 0 < GREEN_DURATION ->
  let c := traffic_context w in
  let now := millis_at w (timer_reads w) in
  exists w', state_machine_run w = Done tt w' /\
    current_state (traffic_context w') = STATE_GREEN /\
    state_start_time (traffic_context w') = state_start_time c /\
    last_beep_time (traffic_context w') =
      (if beep_due c now then now else last_beep_time c) /\
    beep_active (traffic_context w') =
      (if beep_due c now then true
       else beep_active c && negb (BEEP_DURATION <=? sub32 now (last_beep_time c))) /\
    beep_starts (trace w') =
      (beep_starts (trace w) + (if beep_due c now then 1 else 0))%nat.
Proof.
  intros Hs He. open_world w. subst s. unfold beep_due.
  cbn [last_beep_time beep_active].
  apply Z.leb_gt in He. unfold_handlers. run_code.
  destruct ((lb =? 0) || (BEEP_INTERVAL <=? sub32 (to_uint32 (to_uint64 (tm r) / 1000)) lb));
    run_code.
  - rewrite sub32_diag. run_code. rewrite He. run_code.
    eexists; split; [reflexivity|]. run_code.
    rewrite !beep_starts_app. cbn. repeat split. lia.
  - destruct ba; run_code;
      [destruct (BEEP_DURATION <=? sub32 (to_uint32 (to_uint64 (tm r) / 1000)) lb); run_code|];
      rewrite He; run_code;
      (eexists; split; [reflexivity|]); run_code;
      rewrite ?beep_starts_app; cbn; repeat split; lia.
Qed.

Lemma green_beep_rule_witness :
  let w := world_in STATE_GREEN 7000 7010 true (clock_from 7210 10) in
  exists w', state_machine_run w = Done tt w' /\
    current_state (traffic_context w') = STATE_GREEN /\
    state_start_time (traffic_context w') = 7000 /\
    last_beep_time (traffic_context w') = 7010 /\
    beep_active (traffic_context w') = false /\
    beep_starts (trace w') = 0%nat.
Proof.
  refine (green_beep_rule (world_in STATE_GREEN 7000 7010 true (clock_from 7210 10)) _ _).
  - reflexivity.
  - reflexivity.
Defined.

Lemma green_waiting_outputs w :
  current_state (traffic_context w) = STATE_GREEN ->
  elapsed_at w 0 < GREEN_DURATION ->
  buzzer_duty (board w) = (if beep_active (traffic_context w) then LEDC_DUTY else 0) ->
  exists w', state_machine_run w = Done tt w' /\
    current_state (traffic_context w') = STATE_GREEN /\
    lights (board w') = lights (board w) /\
    transitions (trace w') = transitions (trace w) /\
    buzzer_duty (board w') = (if beep_active (traffic_context w') then LEDC_DUTY else 0).
Proof.
  intros Hs He Hd. open_world w. subst s.
  apply Z.leb_gt in He. unfold_handlers. run_code.
  destruct ((lb =? 0) || (BEEP_INTERVAL <=? sub32 (to_uint32 (to_uint64 (tm r) / 1000)) lb));
    run_code.
  - rewrite sub32_diag. run_code. rewrite He. run_code.
    eexists; split; [reflexivity|]. run_code.
    rewrite !transitions_app. cbn. repeat split. lia.
  - destruct ba; run_code;
      [destruct (BEEP_DURATION <=? sub32 (to_uint32 (to_uint64 (tm r) / 1000)) lb); run_code|];
      rewrite He; run_code;
      (eexists; split; [reflexivity|]); run_code;
      rewrite ?transitions_app; cbn; repeat split; auto; lia.
Qed.

Lemma setup_consistent b timer w :
  app_main_setup (power_on b timer) = Done tt w -> outputs_consistent w.
Proof.
  unfold app_main_setup, init_traffic_leds, init_buzzer, power_on.
  run_code. intros H. injection H as <-.
  unfold outputs_consistent. cbn.
  split; [unfold valid_state, STATE_RED, STATE_MAX; lia|].
  split; [reflexivity|]. split; [discriminate|].
  right. repeat split.
Qed.

Lemma loop_iteration_consistent w w' :
  outputs_consistent w -> loop_iteration w = Done tt w' -> outputs_consistent w'.
Proof.
  intros (Hv & Hd & Hb & Hl) Hit.
  assert (Hframe : forall w1, state_machine_run w = Done tt w1 ->
                              w' = after_call (VTaskDelay 10) w1).
  { intros w1 Hrun. rewrite (loop_iteration_after _ _ Hrun) in Hit. congruence. }
  assert (Htr : forall w1, transitions (trace (after_call (VTaskDelay 10) w1))
                           = transitions (trace w1)).
  { intros w1. unfold after_call. cbn [trace]. rewrite transitions_app. cbn. lia. }
  destruct (Z_lt_le_dec (elapsed_at w 0) (state_duration (current_state (traffic_context w))))
    as [Hlt|Hge].
  - destruct (Z.eq_dec (current_state (traffic_context w)) STATE_GREEN) as [Hg|Hg].
    + rewrite Hg in Hlt.
      destruct (green_waiting_outputs w Hg Hlt Hd) as (w1 & Hrun & Hs1 & Hl1 & Ht1 & Hd1).
      rewrite (Hframe w1 Hrun). unfold outputs_consistent.
      rewrite Htr. cbn [after_call traffic_context board].
      rewrite Hs1, Hl1, Ht1. rewrite Hg in Hl, Hv.
      split; [exact Hv|]. split; [exact Hd1|]. split; [reflexivity|].
      destruct Hl as [Hl | (_ & Hl & _)]; [left; exact Hl|discriminate Hl].
    + pose proof (poll_idle w Hv Hg Hlt) as Hrun.
      rewrite (Hframe _ Hrun). unfold outputs_consistent.
      rewrite Htr. cbn [after_call after_clock_read traffic_context board trace].
      auto.
  - destruct (poll_expired w Hv Hge) as (w1 & Hrun & Hc & _ & _ & Ht1).
    destruct (poll_expired_board w Hv Hge) as (w2 & Hrun2 & Hl2 & Hd2 & _).
    assert (w2 = w1) by congruence. subst w2.
    rewrite (Hframe w1 Hrun). unfold outputs_consistent.
    rewrite Htr, Ht1.
    cbn [after_call traffic_context board]. rewrite Hc. cbn [current_state beep_active].
    split; [apply valid_next_state, Hv|]. split; [exact Hd2|].
    split; [discriminate|]. left. split; [lia|exact Hl2].
Qed.

(** X3: in every world the program reaches at the top of its loop, the
    buzzer's duty is [LEDC_DUTY] or 0 according to [beep_active], a beep is
    active only in GREEN, and once a transition has been made exactly the
    light of the current state is on; before the first transition the state
    is RED and all lights are off. *)
Theorem reachable_outputs_consistent (w : World) :
  reachable w -> outputs_consistent w.
Proof.
  induction 1 as [b timer w Hsetup | w w' _ IH Hit].
  - eapply setup_consistent, Hsetup.
  - eapply loop_iteration_consistent; eauto.
Qed.

Lemma reachable_outputs_witness :
  outputs_consistent
    (final (app_main_setup (power_on board_at_reset (clock_from 0 10)))).
Proof.
  apply (reachable_outputs_consistent
           (final (app_main_setup (power_on board_at_reset (clock_from 0 10))))).
  apply (reach_setup board_at_reset (clock_from 0 10)). vm_compute. reflexivity.
Defined.

End TrafficLightProofs.
